(** * chrF scoring of SacreBLEU: n-gram extraction, sentence statistics,
      the F-beta scorer, the corpus driver and the score report.

    The development embeds [sacrebleu/metrics/helpers.py] and
    [sacrebleu/metrics/chrf.py].

    Modelling choices, shared by every definition below:
    - a Python [str] is a list of characters ([list ascii]), a token list is
      a list of tokens; a slice [l[i:j]] with non-negative bounds is
      [take (j - i) (drop i l)], which clamps at the end of the list the way
      Python does;
    - [collections.Counter] is a finite multiset ([gmultiset]): [Counter(l)]
      is [list_to_set_disj l], [c1 & c2] is the multiset intersection and
      [sum(c.values())] is [size c];
    - a Python [int] is a [Z]; a Python [float] is an exact rational
      ([Qc]): rounding of binary floating point is not modelled. The scorer
      is embedded twice: in [CHRF], on the real numbers of the formulas, and
      in [Ranged], at the end of the file, with the [OverflowError] that
      Python raises when an operation leaves the range of a double;
    - a raised exception is the [Raise] case of [result]. *)

From Stdlib Require Import Ascii String QArith Qabs Qcanon.
From stdpp Require Import base numbers list strings gmap gmultiset pretty.

Local Open Scope Z_scope.

(** ** Python values and exceptions *)

Inductive exn : Type :=
  | IndexError
  | ZeroDivisionError
  | ValueError
  | AssertionError
  | EOFError
  | OverflowError.

Inductive result (A : Type) : Type :=
  | Ok (a : A)
  | Raise (e : exn).
Arguments Ok {A} a.
Arguments Raise {A} e.

#[global] Instance exn_eq_dec : EqDecision exn.
Proof. solve_decision. Defined.

#[global] Instance result_ret : MRet result := @Ok.
#[global] Instance result_bind : MBind result := λ A B f r,
  match r with
  | Ok a => f a
  | Raise e => Raise e
  end.

Definition is_Ok {A} (r : result A) : Prop := ∃ a, r = Ok a.

(** [len(l)] and [range(n)], [range(a, b)]. *)
Definition len {A} (l : list A) : Z := Z.of_nat (length l).
Definition range (n : Z) : list nat := seq 0 (Z.to_nat n).
Definition range_from (a : nat) (b : Z) : list nat :=
  seq a (Z.to_nat (b - Z.of_nat a)).

(** [l[i:j]] for non-negative [i] and [j]. *)
Definition slice {A} (l : list A) (i j : nat) : list A :=
  take (j - i)%nat (drop i l).

(** [l[i]] and [l[i] = x] for a non-negative [i]: both raise [IndexError]
    out of range. *)
Definition getitem {A} (l : list A) (i : nat) : result A :=
  match l !! i with
  | Some x => Ok x
  | None => Raise IndexError
  end.

Definition setitem {A} (l : list A) (i : nat) (x : A) : result (list A) :=
  if decide (i < length l)%nat then Ok (<[i:=x]> l) else Raise IndexError.

(** ** helpers.py *)

Section Ngrams.
Context {A : Type} `{Countable A}.

(** [Counter(l)], [c1 & c2] and [sum(c.values())]. *)
Definition Counter (l : list (list A)) : gmultiset (list A) :=
  list_to_set_disj l.
Definition Counter_and (c1 c2 : gmultiset (list A)) : gmultiset (list A) :=
  c1 ∩ c2.
Definition sum_values (c : gmultiset (list A)) : Z := Z.of_nat (size c).

(** The list comprehension of [extract_char_ngrams]:
    [[line[i:i + n] for i in range(len(line) - n + 1)]]. *)
Definition ngram_list (line : list A) (n : nat) : list (list A) :=
  (λ i, slice line i (i + n)) <$> range (len line - Z.of_nat n + 1).

Definition extract_char_ngrams (line : list A) (n : nat)
  : gmultiset (list A) :=
  Counter (ngram_list line n).

(** [extract_word_ngrams]: the two nested loops append the n-grams of
    every order from [min_order] to [max_order] to one list. *)
Definition extract_word_ngrams (tokens : list A) (min_order : nat)
    (max_order : Z) : gmultiset (list A) :=
  Counter (n ← range_from min_order (max_order + 1);
           (λ i, slice tokens i (i + n)) <$>
             range (len tokens - Z.of_nat n + 1)).

(** The number of positions of [l] at which [g] starts. *)
Fixpoint occurrences (g l : list A) : nat :=
  match l with
  | [] => 0
  | _ :: l' => (if decide (g `prefix_of` l) then 1 else 0) + occurrences g l'
  end%nat.
End Ngrams.

(** ** Python numbers, loops and string formatting *)

(** A character string, and the text of a literal. *)
Abbreviation str := (list ascii).
Definition s2l (s : string) : str := String.list_ascii_of_string s.

(** A number that is an [int] or a [float]. *)
Inductive number : Type :=
  | PyInt (z : Z)
  | PyFloat (q : Qc).

Definition to_float (x : number) : Qc :=
  match x with
  | PyInt z => Qc_of_Z z
  | PyFloat q => q
  end.

(** [x ** 2] over the reals: an int for an int, a float for a float.
    [Ranged.square] is the operation with its [OverflowError]. *)
Definition square (x : number) : number :=
  match x with
  | PyInt z => PyInt (z * z)
  | PyFloat q => PyFloat (q * q)
  end.

(** [a / b] on two ints and on two floats over the reals: true division,
    which raises [ZeroDivisionError] on a zero divisor. [Ranged.truediv]
    is the division of two ints with its [OverflowError]. *)
Definition fdiv (x y : Qc) : result Qc :=
  if decide (y = 0%Qc) then Raise ZeroDivisionError else Ok (x / y)%Qc.
Definition truediv (a b : Z) : result Qc := fdiv (Qc_of_Z a) (Qc_of_Z b).

(** [for x in l: s = body(s, x)] where the body may raise. *)
Fixpoint for_each {S B} (l : list B) (body : S → B → result S) (s : S)
  : result S :=
  match l with
  | [] => Ok s
  | x :: l' => s' ← body s x; for_each l' body s'
  end.

(** ['{0:d}'.format(x)]: the decimal digits of an int; a float is refused
    with [ValueError]. *)
Definition format_d (x : number) : result string :=
  match x with
  | PyInt z => Ok (pretty z)
  | PyFloat _ => Raise ValueError
  end.

(** Rounding of a non-negative rational to the nearest integer, ties to
    even, as ['f'] formatting rounds. *)
Definition round_half_even (q : Q) : Z :=
  let n := Qnum q in
  let d := Zpos (Qden q) in
  let fl := n `div` d in
  let r := n `mod` d in
  if decide (2 * r < d) then fl
  else if decide (d < 2 * r) then fl + 1
  else if Z.even fl then fl else fl + 1.

(** The last [p] decimal digits of [n], most significant first. *)
Fixpoint fixed_digits (p : nat) (n : Z) : string :=
  match p with
  | O => ""
  | S p' =>
      fixed_digits p' (n `div` 10) +:+
      String (pretty_N_char (Z.to_N (n `mod` 10))) ""
  end.

(** ['{0:.{1}f}'.format(x, p)]: fixed-point notation with [p] digits after
    the point; a negative precision is refused with [ValueError]. *)
Definition format_f (x : Qc) (p : Z) : result string :=
  if decide (p < 0) then Raise ValueError
  else
    let scaled := round_half_even (Qabs (this x) * inject_Z (10 ^ p))%Q in
    let sign := if decide (x < 0)%Qc then "-" else "" in
    let whole := pretty (scaled `div` 10 ^ p) in
    let frac := fixed_digits (Z.to_nat p) (scaled `mod` 10 ^ p) in
    Ok (sign +:+ whole +:+ (if decide (p = 0) then "" else "." +:+ frac)).

(** ** chrf.py: CHRFScore *)

Module CHRFScore.
Record t : Type := Build {
  score : Qc;
  beta : number;
  order : Z;
  prefix : string;
}.

(** [CHRFScore.__init__]. *)
Definition init (score : Qc) (beta : number) (order : Z) : result t :=
  digits ← format_d beta;
  Ok (Build score beta order ("chrF" +:+ digits)).

(** [CHRFScore.format]. *)
Definition format (self : t) (width : Z) (score_only : bool)
    (signature : string) : result string :=
  let width := width + 1 in
  if score_only then format_f (score self) width
  else
    let prefix :=
      if decide (signature = "") then prefix self
      else prefix self +:+ "+" +:+ signature in
    sc ← format_f (score self) width;
    Ok (prefix +:+ " = " +:+ sc).
End CHRFScore.

(** ** The tokenizers *)

(** Modelled from the spec: the classes [BaseTokenizer] and [TokenizerChrf]
    of [sacrebleu/tokenizers] are not part of the sources. The spec describes
    the tokenizer as a function from a text to its sequence of characters,
    and the metric's option as whether whitespace is stripped before the
    extraction (stripped by default): [BaseTokenizer] keeps the text as it
    is and [TokenizerChrf] removes its whitespace characters. *)
Definition is_whitespace (c : ascii) : bool :=
  bool_decide (c ∈ [" "; "009"; "010"; "011"; "012"; "013"]%char).

Definition BaseTokenizer (line : str) : str := line.
Definition TokenizerChrf (line : str) : str :=
  filter (λ c, is_whitespace c = false) line.

(** ** chrf.py: CHRF *)

(** The [references] argument of [sentence_score]: a list of strings, or
    the single string that the assertion refuses. *)
Inductive references_arg : Type :=
  | RefStr (s : str)
  | RefList (l : list str).

(** The arguments of [corpus_score]: each is a single string or the
    stream, respectively the list of streams, that it stands for. *)
Inductive sys_arg : Type :=
  | SysStr (s : str)
  | SysStream (l : list str).

Inductive refs_arg : Type :=
  | RefsStr (s : str)
  | RefStreams (l : list (list str)).

(** [itertools.zip_longest] applied to the streams [fhs]: one tuple per position up to the longest
    stream, with [None] where a stream has ended. *)
Definition zip_longest {A} (fhs : list (list A)) : list (list (option A)) :=
  (λ i, (λ fh, fh !! i) <$> fhs) <$> seq 0 (max_list (length <$> fhs)).

Module CHRF.
Record t : Type := Build {
  name : string;
  beta : number;
  order : Z;
  num_refs : Z;
  lowercase : bool;
  whitespace : bool;
  tokenizer : str → str;
}.

Definition ORDER : Z := 6.
Definition BETA : number := PyInt 2.

(** [CHRF.__init__]. *)
Definition init (whitespace : bool) (order : Z) (beta : number)
    (lowercase : bool) (num_refs : Z) : t :=
  Build "chrf" beta order num_refs lowercase whitespace
    (if whitespace then BaseTokenizer else TokenizerChrf).

(** The body of the loop of [compute_chrf] at order index [i], on the
    accumulators [(avg_precision, avg_recall, effective_order)]. *)
Definition chrf_step (statistics : list Z) (acc : Qc * Qc * Z) (i : nat)
  : result (Qc * Qc * Z) :=
  let '(avg_precision, avg_recall, effective_order) := acc in
  hypotheses_ngrams ← getitem statistics (3 * i + 0);
  references_ngrams ← getitem statistics (3 * i + 1);
  common_ngrams ← getitem statistics (3 * i + 2);
  if decide (hypotheses_ngrams > 0 ∧ references_ngrams > 0) then
    p ← truediv common_ngrams hypotheses_ngrams;
    r ← truediv common_ngrams references_ngrams;
    Ok ((avg_precision + p)%Qc, (avg_recall + r)%Qc, effective_order + 1)
  else Ok acc.

(** [compute_chrf] up to the averaging: the values of [avg_precision]
    and [avg_recall] when the F-score is computed. *)
Definition chrf_averages (statistics : list Z) (order : Z)
  : result (Qc * Qc) :=
  '(avg_precision, avg_recall, effective_order) ←
    for_each (range order) (chrf_step statistics) (0%Qc, 0%Qc, 0);
  if decide (effective_order = 0) then Ok (0%Qc, 0%Qc)
  else
    avg_precision ← fdiv avg_precision (Qc_of_Z effective_order);
    avg_recall ← fdiv avg_recall (Qc_of_Z effective_order);
    Ok (avg_precision, avg_recall).

(** [compute_chrf] up to the last assignment of [score], over the reals. *)
Definition chrf_fscore (statistics : list Z) (order : Z) (beta : number)
  : result Qc :=
  '(avg_precision, avg_recall) ← chrf_averages statistics order;
  if decide (avg_precision + avg_recall = 0)%Qc then Ok 0%Qc
  else
    let beta_square := to_float (square beta) in
    let score := ((1 + beta_square) * (avg_precision * avg_recall))%Qc in
    fdiv score (beta_square * avg_precision + avg_recall)%Qc.

(** [CHRF.compute_chrf]. *)
Definition compute_chrf (statistics : list Z) (order : Z) (beta : number)
  : result CHRFScore.t :=
  score ← chrf_fscore statistics order beta;
  CHRFScore.init score beta order.

(** The body of the loop of [get_sentence_statistics] at order index
    [i], on the tokenized hypothesis and reference. *)
Definition statistics_step (hypothesis reference : str)
    (statistics : list Z) (i : nat) : result (list Z) :=
  let n := (i + 1)%nat in
  let hypothesis_ngrams := extract_char_ngrams hypothesis n in
  let reference_ngrams := extract_char_ngrams reference n in
  let common_ngrams := Counter_and hypothesis_ngrams reference_ngrams in
  statistics ← setitem statistics (3 * i + 0) (sum_values hypothesis_ngrams);
  statistics ← setitem statistics (3 * i + 1) (sum_values reference_ngrams);
  setitem statistics (3 * i + 2) (sum_values common_ngrams).

(** [CHRF.get_sentence_statistics]. *)
Definition get_sentence_statistics (self : t) (hypothesis : str)
    (references : list str) : result (list Z) :=
  reference ← getitem references 0;
  let hypothesis := tokenizer self hypothesis in
  let reference := tokenizer self reference in
  let statistics := replicate (Z.to_nat (order self * 3)) 0 in
  for_each (range (order self)) (statistics_step hypothesis reference)
    statistics.

(** [CHRF.sentence_score]. *)
Definition sentence_score (self : t) (hypothesis : str)
    (references : references_arg) : result CHRFScore.t :=
  match references with
  | RefStr _ => Raise AssertionError
  | RefList references =>
      stats ← get_sentence_statistics self hypothesis references;
      compute_chrf stats (order self) (beta self)
  end.

(** The body of the loop of [corpus_score] on one tuple of
    [zip_longest]. *)
Definition corpus_step (self : t) (corpus_statistics : list Z)
    (lines : list (option str)) : result (list Z) :=
  if decide (None ∈ lines) then Raise EOFError
  else
    match omap id lines with
    | [] => Raise ValueError
    | hypothesis :: refs =>
        statistics ← get_sentence_statistics self hypothesis refs;
        for_each (range (len statistics)) (λ corpus_statistics i,
          x ← getitem corpus_statistics i;
          y ← getitem statistics i;
          setitem corpus_statistics i (x + y)) corpus_statistics
    end.

(** [CHRF.corpus_score]. *)
Definition corpus_score (self : t) (sys_stream : sys_arg)
    (ref_streams : refs_arg) : result CHRFScore.t :=
  let sys_stream :=
    match sys_stream with SysStr s => [s] | SysStream l => l end in
  let ref_streams :=
    match ref_streams with RefsStr s => [[s]] | RefStreams l => l end in
  let corpus_statistics := replicate (Z.to_nat (order self * 3)) 0 in
  let fhs := [sys_stream] ++ ref_streams in
  corpus_statistics ←
    for_each (zip_longest fhs) (corpus_step self) corpus_statistics;
  compute_chrf corpus_statistics (order self) (beta self).
End CHRF.

(** * Properties *)

(** ** The n-gram extractor *)

Section NgramFacts.
Context {A : Type} `{Countable A}.
Implicit Types (line g : list A) (n i : nat).

Lemma slice_window line i n : slice line i (i + n) = take n (drop i line).
Proof. unfold slice. f_equal. lia. Qed.

Lemma ngram_list_take_drop line n :
  ngram_list line n =
  (λ i, take n (drop i line)) <$> range (len line - Z.of_nat n + 1).
Proof.
  unfold ngram_list. apply list_fmap_ext. intros _ i _. apply slice_window.
Qed.

Lemma ngram_list_length line n :
  length (ngram_list line n) = Z.to_nat (len line - Z.of_nat n + 1).
Proof. unfold ngram_list, range. by rewrite length_fmap, length_seq. Qed.

Lemma ngram_list_short line n :
  (length line < n)%nat → ngram_list line n = [].
Proof.
  intros Hlt. apply nil_length_inv. rewrite ngram_list_length.
  unfold len. lia.
Qed.

(** The n-grams of [x :: line] are its first window, if there is one,
    followed by the n-grams of [line]. *)
Lemma ngram_list_cons x line n :
  ngram_list (x :: line) n =
  if decide (n ≤ S (length line))%nat
  then take n (x :: line) :: ngram_list line n
  else [].
Proof.
  case_decide as Hn.
  - rewrite !ngram_list_take_drop. unfold range, len. cbn [length].
    replace (Z.to_nat (Z.of_nat (S (length line)) - Z.of_nat n + 1))
      with (S (Z.to_nat (Z.of_nat (length line) - Z.of_nat n + 1))) by lia.
    cbn [seq fmap list_fmap]. rewrite drop_0. f_equal.
    rewrite <- fmap_S_seq, <- list_fmap_compose. by apply list_fmap_ext.
  - apply ngram_list_short. cbn [length]. lia.
Qed.

Lemma Counter_size (l : list (list A)) : size (Counter l) = length l.
Proof.
  unfold Counter. induction l as [|g l IH]; [done|].
  rewrite list_to_set_disj_cons, gmultiset_size_disj_union,
    gmultiset_size_singleton, IH. done.
Qed.

Lemma extract_char_ngrams_total line n :
  sum_values (extract_char_ngrams line n) =
  Z.max 0 (len line - Z.of_nat n + 1).
Proof.
  unfold sum_values, extract_char_ngrams.
  rewrite Counter_size, ngram_list_length. lia.
Qed.

Lemma extract_char_ngrams_elem g line n :
  g ∈ extract_char_ngrams line n →
  length g = n ∧ ∃ pre post, line = pre ++ g ++ post.
Proof.
  unfold extract_char_ngrams, Counter.
  rewrite elem_of_list_to_set_disj, ngram_list_take_drop.
  intros (i & -> & Hi)%list_elem_of_fmap.
  apply elem_of_seq in Hi. unfold len in Hi. split.
  - rewrite length_take, length_drop. lia.
  - exists (take i line), (drop n (drop i line)).
    by rewrite !take_drop.
Qed.

Lemma prefix_of_take g line :
  (length g ≤ length line)%nat →
  g `prefix_of` line ↔ take (length g) line = g.
Proof.
  intros Hle. split.
  - intros [k ->]. by rewrite take_app_length.
  - intros <-. apply prefix_take.
Qed.

Lemma occurrences_short g line :
  (length line < length g)%nat → occurrences g line = 0%nat.
Proof.
  induction line as [|x line IH]; [done|]. intros Hlt.
  cbn [occurrences]. rewrite IH by (cbn [length] in Hlt; lia).
  case_decide as Hp; [|done].
  apply prefix_length in Hp. lia.
Qed.

(** The multiplicity of an n-gram is the number of positions at which it
    occurs in the line. *)
Lemma extract_char_ngrams_multiplicity g line n :
  (1 ≤ n)%nat → length g = n →
  multiplicity g (extract_char_ngrams line n) = occurrences g line.
Proof.
  intros Hn Hg. unfold extract_char_ngrams, Counter.
  induction line as [|x line IH].
  - rewrite ngram_list_short by (cbn; lia). done.
  - rewrite ngram_list_cons. cbn [occurrences]. case_decide as Hle.
    + rewrite list_to_set_disj_cons, multiplicity_disj_union, IH.
      f_equal. rewrite multiplicity_singleton.
      pose proof (prefix_of_take g (x :: line)) as Hp.
      rewrite Hg in Hp. destruct (Hp Hle) as [Hp1 Hp2].
      destruct (decide (g = take n (x :: line))) as [Heq|Hne],
        (decide (g `prefix_of` x :: line)) as [Hpre|Hnpre]; try done.
      * exfalso. by apply Hnpre, Hp2.
      * exfalso. apply Hne. symmetry. by apply Hp1.
    + rewrite occurrences_short by (cbn [length]; lia).
      rewrite decide_False; [done|].
      intros Hpre. apply prefix_length in Hpre. cbn [length] in Hpre. lia.
Qed.

Lemma extract_char_ngrams_other_length g line n :
  length g ≠ n → multiplicity g (extract_char_ngrams line n) = 0%nat.
Proof.
  intros Hg. apply not_elem_of_multiplicity.
  by intros [? _]%extract_char_ngrams_elem.
Qed.

Lemma extract_word_ngrams_single (tokens : list A) n :
  extract_word_ngrams tokens n (Z.of_nat n) = extract_char_ngrams tokens n.
Proof.
  unfold extract_word_ngrams, extract_char_ngrams, range_from.
  replace (Z.to_nat (Z.of_nat n + 1 - Z.of_nat n)) with 1%nat by lia.
  cbn. by rewrite app_nil_r.
Qed.
End NgramFacts.

(** C4. For a sequence of length [L] and an order [n ≥ 1], both n-gram
    extractors (the word extractor called for the single order [n]) return
    the same multiset; its total count is [max(0, L - n + 1)]; each of its
    elements is a contiguous slice of the sequence of length [n], and is
    counted as many times as it occurs in the sequence; when [L < n] the
    multiset is empty. The extractors are total functions: nothing is
    raised. *)
Theorem ngram_extractor_contract {A : Type} `{Countable A}
    (line : list A) (n : nat) :
  (1 ≤ n)%nat →
  extract_word_ngrams line n (Z.of_nat n) = extract_char_ngrams line n ∧
  sum_values (extract_char_ngrams line n) = Z.max 0 (len line - Z.of_nat n + 1) ∧
  (∀ g, g ∈ extract_char_ngrams line n →
        length g = n ∧ ∃ pre post, line = pre ++ g ++ post) ∧
  (∀ g, multiplicity g (extract_char_ngrams line n) =
        if decide (length g = n) then occurrences g line else 0%nat) ∧
  (len line < Z.of_nat n → extract_char_ngrams line n = ∅).
Proof.
  intros Hn. split_and!.
  - apply extract_word_ngrams_single.
  - apply extract_char_ngrams_total.
  - intros g. apply extract_char_ngrams_elem.
  - intros g. case_decide.
    + by apply extract_char_ngrams_multiplicity.
    + by apply extract_char_ngrams_other_length.
  - intros Hlt. unfold extract_char_ngrams.
    rewrite ngram_list_short by (unfold len in Hlt; lia). done.
Qed.

(** ** Totals of a Counter *)

Section CounterFacts.
Context {K : Type} `{Countable K}.
Implicit Types (X Y : gmultiset K) (D : gset K).

(** The sum of the counts that [X] gives to the keys of a set [D]. *)
Definition count_over (D : gset K) (X : gmultiset K) : nat :=
  sum_list_with (λ g, multiplicity g X) (elements D).

(** The sum of the values of [X], key by key. *)
Definition total_count (X : gmultiset K) : nat := count_over (dom X) X.

(** The sum, over the keys that [X] and [Y] share, of the smaller of the
    two counts. *)
Definition shared_min_count (X Y : gmultiset K) : nat :=
  sum_list_with (λ g, multiplicity g X `min` multiplicity g Y)%nat
    (elements (dom X ∩ dom Y)).

Lemma sum_list_with_plus {B} (f h : B → nat) (l : list B) :
  sum_list_with (λ b, f b + h b)%nat l =
  (sum_list_with f l + sum_list_with h l)%nat.
Proof. induction l as [|b l IH]; cbn; lia. Qed.

Lemma sum_list_with_pointwise {B} (f h : B → nat) (l : list B) :
  (∀ b, f b = h b) → sum_list_with f l = sum_list_with h l.
Proof. intros Hfh. induction l as [|b l IH]; cbn; [done|]. by rewrite Hfh, IH. Qed.

Lemma sum_list_with_indicator (x : K) (l : list K) :
  NoDup l →
  sum_list_with (λ g, if decide (g = x) then 1 else 0)%nat l =
  if decide (x ∈ l) then 1%nat else 0%nat.
Proof.
  induction 1 as [|y l Hy Hl IH]; cbn.
  - rewrite decide_False; [done|]. apply not_elem_of_nil.
  - rewrite IH. destruct (decide (y = x)) as [->|Hne].
    + rewrite decide_False by done.
      rewrite decide_True by apply list_elem_of_here. done.
    + destruct (decide (x ∈ l)) as [Hin|Hnin].
      * rewrite decide_True by (by apply list_elem_of_further). done.
      * rewrite decide_False; [done|].
        intros [?|?]%elem_of_cons; congruence.
Qed.

Lemma count_over_size D X : dom X ⊆ D → count_over D X = size X.
Proof.
  unfold count_over. induction X as [|x X IH] using gmultiset_ind.
  all: intros Hdom.
  - rewrite gmultiset_size_empty.
    induction (elements D) as [|g l IHl]; cbn; [done|].
    by rewrite IHl, multiplicity_empty.
  - assert (x ∈ D) as Hx.
    { apply Hdom, gmultiset_elem_of_dom, gmultiset_elem_of_disj_union.
      left. by apply gmultiset_elem_of_singleton. }
    assert (dom X ⊆ D) as HX.
    { intros g Hg. apply Hdom, gmultiset_elem_of_dom,
        gmultiset_elem_of_disj_union. right.
      by apply gmultiset_elem_of_dom. }
    rewrite gmultiset_size_disj_union, gmultiset_size_singleton.
    rewrite <- (IH HX).
    pose proof (sum_list_with_indicator x (elements D) (NoDup_elements D))
      as Hind.
    rewrite decide_True in Hind by (by apply elem_of_elements).
    rewrite <- Hind, <- sum_list_with_plus.
    apply sum_list_with_pointwise.
    intros g. rewrite multiplicity_disj_union, multiplicity_singleton.
    done.
Qed.
End CounterFacts.

Section CounterSizes.
Context {K : Type} `{Countable K}.
Implicit Types X Y : gmultiset K.

Lemma total_count_size X : total_count X = size X.
Proof. by apply count_over_size. Qed.

Lemma shared_min_count_size X Y : shared_min_count X Y = size (X ∩ Y).
Proof.
  unfold shared_min_count.
  rewrite <- (count_over_size (dom X ∩ dom Y) (X ∩ Y)).
  - apply sum_list_with_pointwise. intros g.
    by rewrite multiplicity_intersection.
  - intros g. rewrite elem_of_intersection, !gmultiset_elem_of_dom.
    apply gmultiset_elem_of_intersection.
Qed.

Lemma intersection_size_le X Y :
  (size (X ∩ Y) ≤ size X ∧ size (X ∩ Y) ≤ size Y)%nat.
Proof.
  split; apply gmultiset_subseteq_size; intros g;
    rewrite multiplicity_intersection; lia.
Qed.
End CounterSizes.

(** ** Lists updated in place *)

Lemma getitem_middle {B} (pre post : list B) (x : B) (i : nat) :
  i = length pre → getitem (pre ++ x :: post) i = Ok x.
Proof. intros ->. unfold getitem. by rewrite list_lookup_middle. Qed.

Lemma getitem_Some {B} (l : list B) (i : nat) (x : B) :
  l !! i = Some x → getitem l i = Ok x.
Proof. intros Hi. unfold getitem. by rewrite Hi. Qed.

Lemma setitem_middle {B} (pre post : list B) (x y : B) (i : nat) :
  i = length pre → setitem (pre ++ x :: post) i y = Ok (pre ++ y :: post).
Proof.
  intros ->. unfold setitem.
  rewrite decide_True by (rewrite length_app; cbn; lia).
  by rewrite insert_app_r_alt, Nat.sub_diag.
Qed.

(** ** The statistics vector of a sentence *)

(** The triplet of order [n]: hypothesis total, reference total, total of
    the intersection. *)
Definition triplet (hypothesis reference : str) (n : nat) : list Z :=
  [ sum_values (extract_char_ngrams hypothesis n);
    sum_values (extract_char_ngrams reference n);
    sum_values (Counter_and (extract_char_ngrams hypothesis n)
                            (extract_char_ngrams reference n)) ].

(** The triplets of the orders [k + 1 .. k + m], one after the other. *)
Definition triplets (hypothesis reference : str) (k m : nat) : list Z :=
  i ← seq k m; triplet hypothesis reference (i + 1).

Lemma statistics_step_middle hypothesis reference (pre post : list Z)
    (x y z : Z) (k : nat) :
  length pre = (3 * k)%nat →
  CHRF.statistics_step hypothesis reference (pre ++ x :: y :: z :: post) k =
  Ok (pre ++ triplet hypothesis reference (k + 1) ++ post).
Proof.
  intros Hpre. unfold CHRF.statistics_step. cbv zeta.
  rewrite setitem_middle by lia. cbn [mbind result_bind].
  rewrite (cons_middle _ pre), (assoc (++)).
  rewrite setitem_middle by (rewrite length_app; cbn; lia).
  cbn [mbind result_bind].
  rewrite (cons_middle _ (pre ++ _)), (assoc (++)).
  rewrite setitem_middle by (rewrite !length_app; cbn; lia).
  unfold triplet. cbn [app]. by rewrite <- !(assoc (++)).
Qed.

Lemma statistics_loop hypothesis reference (pre : list Z) (k m : nat) :
  length pre = (3 * k)%nat →
  for_each (seq k m) (CHRF.statistics_step hypothesis reference)
    (pre ++ replicate (3 * m) 0) =
  Ok (pre ++ triplets hypothesis reference k m).
Proof.
  revert pre k. induction m as [|m IH]; intros pre k Hpre; [done|].
  replace (3 * S m)%nat with (S (S (S (3 * m)))) by lia.
  unfold triplets. cbn [replicate seq for_each mbind list_bind].
  rewrite statistics_step_middle by done. cbn [mbind result_bind].
  rewrite (assoc (++)), IH.
  - by rewrite <- (assoc (++)).
  - rewrite length_app. cbn. lia.
Qed.

(** The vector that [get_sentence_statistics] builds from a hypothesis and
    the reference it selects, both tokenized. *)
Definition sentence_vector (self : CHRF.t) (hypothesis reference : str)
  : list Z :=
  triplets (CHRF.tokenizer self hypothesis) (CHRF.tokenizer self reference)
    0 (Z.to_nat (CHRF.order self)).

Lemma get_sentence_statistics_cons self hypothesis reference rest :
  CHRF.get_sentence_statistics self hypothesis (reference :: rest) =
  Ok (sentence_vector self hypothesis reference).
Proof.
  unfold CHRF.get_sentence_statistics, sentence_vector, range.
  cbn [getitem lookup list_lookup mbind result_bind].
  replace (Z.to_nat (CHRF.order self * 3))
    with (3 * Z.to_nat (CHRF.order self))%nat by lia.
  by rewrite (statistics_loop _ _ [] 0).
Qed.

Lemma get_sentence_statistics_nil self hypothesis :
  CHRF.get_sentence_statistics self hypothesis [] = Raise IndexError.
Proof. done. Qed.

Lemma triplets_S hypothesis reference k m :
  triplets hypothesis reference k (S m) =
  triplet hypothesis reference (k + 1) ++ triplets hypothesis reference (S k) m.
Proof. done. Qed.

Lemma triplets_length hypothesis reference k m :
  length (triplets hypothesis reference k m) = (3 * m)%nat.
Proof.
  revert k. induction m as [|m IH]; intros k; [done|].
  rewrite triplets_S, length_app, IH. cbn. lia.
Qed.

Lemma triplets_lookup hypothesis reference k m i j :
  (i < m)%nat → (j < 3)%nat →
  triplets hypothesis reference k m !! (3 * i + j)%nat =
  triplet hypothesis reference (k + i + 1) !! j.
Proof.
  revert k i. induction m as [|m IH]; intros k i Hi Hj; [lia|].
  rewrite triplets_S. destruct i as [|i].
  - rewrite lookup_app_l by (cbn; lia).
    by replace (k + 0 + 1)%nat with (k + 1)%nat by lia.
  - rewrite lookup_app_r by (cbn; lia).
    replace (3 * S i + j - length (triplet hypothesis reference (k + 1)))%nat
      with (3 * i + j)%nat by (cbn; lia).
    rewrite IH by lia. f_equal. f_equal. lia.
Qed.

Lemma triplets_nonneg hypothesis reference k m :
  Forall (λ x, 0 ≤ x) (triplets hypothesis reference k m).
Proof.
  revert k. induction m as [|m IH]; intros k; [by apply Forall_nil|].
  rewrite triplets_S. apply Forall_app. split; [|apply IH].
  unfold triplet, sum_values. repeat constructor; lia.
Qed.

(** ** Well-formed statistics vectors *)

(** A statistics vector for [order] orders: three entries per order, none
    negative, and in each triplet the common count is at most the
    hypothesis count and at most the reference count. *)
Definition valid_statistics (order : Z) (st : list Z) : Prop :=
  len st = 3 * order ∧
  Forall (λ x, 0 ≤ x) st ∧
  ∀ (i : nat) h r c,
    st !! (3 * i)%nat = Some h → st !! (3 * i + 1)%nat = Some r →
    st !! (3 * i + 2)%nat = Some c → c ≤ Z.min h r.

(** Element-wise addition of two vectors. *)
Definition vec_add (a b : list Z) : list Z := zip_with Z.add a b.

Lemma sentence_vector_length self hypothesis reference :
  length (sentence_vector self hypothesis reference) =
  Z.to_nat (CHRF.order self * 3).
Proof. unfold sentence_vector. rewrite triplets_length. lia. Qed.

Lemma sentence_vector_valid self hypothesis reference :
  0 ≤ CHRF.order self →
  valid_statistics (CHRF.order self)
    (sentence_vector self hypothesis reference).
Proof.
  intros Hord. split_and!.
  - unfold len. rewrite sentence_vector_length. lia.
  - apply triplets_nonneg.
  - intros i h r c Hh Hr Hc. unfold sentence_vector in *.
    assert (i < Z.to_nat (CHRF.order self))%nat as Hi.
    { apply lookup_lt_Some in Hc. rewrite triplets_length in Hc. lia. }
    replace (3 * i)%nat with (3 * i + 0)%nat in Hh by lia.
    rewrite triplets_lookup in Hh, Hr, Hc by lia.
    cbn in Hh, Hr, Hc. simplify_eq. unfold sum_values, Counter_and.
    match goal with
    | |- context [size (?X ∩ ?Y)] => pose proof (intersection_size_le X Y)
    end. lia.
Qed.

Lemma vec_add_valid order a b :
  valid_statistics order a → valid_statistics order b →
  valid_statistics order (vec_add a b).
Proof.
  unfold valid_statistics, vec_add, len.
  intros (Hla & Hna & Hta) (Hlb & Hnb & Htb). split_and!.
  - rewrite length_zip_with. lia.
  - apply Forall_lookup. intros i x.
    rewrite lookup_zip_with_Some. intros (x1 & x2 & -> & Hx1 & Hx2).
    pose proof (Forall_lookup_1 _ _ _ _ Hna Hx1).
    pose proof (Forall_lookup_1 _ _ _ _ Hnb Hx2). cbn in *. lia.
  - intros i h r c.
    rewrite !lookup_zip_with_Some.
    intros (h1 & h2 & -> & Hh1 & Hh2) (r1 & r2 & -> & Hr1 & Hr2)
      (c1 & c2 & -> & Hc1 & Hc2).
    specialize (Hta i _ _ _ Hh1 Hr1 Hc1).
    specialize (Htb i _ _ _ Hh2 Hr2 Hc2). lia.
Qed.

(** ** The scorer: the averages over the effective orders *)

(** The entry of a vector at an index. *)
Definition entry (st : list Z) (i : nat) : Z := default 0 (st !! i).

(** An order index is effective when the hypothesis count and the
    reference count of its triplet are both strictly positive. *)
Definition effective (st : list Z) (i : nat) : Prop :=
  0 < entry st (3 * i + 0) ∧ 0 < entry st (3 * i + 1).

#[global] Instance effective_dec st i : Decision (effective st i).
Proof. unfold effective. apply _. Defined.

Definition effective_orders (st : list Z) (order : Z) : list nat :=
  filter (effective st) (range order).

Definition sum_Qc (l : list Qc) : Qc := foldr Qcplus 0%Qc l.

(** Precision and recall of one order: common / hyp and common / ref. *)
Definition precision_at (st : list Z) (i : nat) : Qc :=
  (Qc_of_Z (entry st (3 * i + 2)) / Qc_of_Z (entry st (3 * i + 0)))%Qc.
Definition recall_at (st : list Z) (i : nat) : Qc :=
  (Qc_of_Z (entry st (3 * i + 2)) / Qc_of_Z (entry st (3 * i + 1)))%Qc.

(** The mean of [f] over the given orders, and 0 when there is none. *)
Definition average (f : nat → Qc) (orders : list nat) : Qc :=
  if decide (orders = []) then 0%Qc
  else (sum_Qc (f <$> orders) / Qc_of_Z (len orders))%Qc.

Definition averaged_precision (st : list Z) (order : Z) : Qc :=
  average (precision_at st) (effective_orders st order).
Definition averaged_recall (st : list Z) (order : Z) : Qc :=
  average (recall_at st) (effective_orders st order).

(** The F-beta combination of a precision and a recall. *)
Definition f_beta (beta p r : Qc) : Qc :=
  if decide (p + r = 0)%Qc then 0%Qc
  else ((1 + beta * beta) * p * r / (beta * beta * p + r))%Qc.

Section ScorerLoop.
Local Open Scope Qc_scope.
Implicit Types (st : list Z) (p r : Qc) (e : Z).

Lemma getitem_entry st (i : nat) :
  (i < length st)%nat → getitem st i = Ok (entry st i).
Proof.
  intros Hi. unfold getitem, entry.
  destruct (st !! i) eqn:Hlook; [done|].
  apply lookup_ge_None in Hlook. lia.
Qed.

Lemma truediv_pos (a b : Z) :
  (0 < b)%Z → truediv a b = Ok (Qc_of_Z a / Qc_of_Z b).
Proof.
  intros Hb. unfold truediv, fdiv. rewrite decide_False; [done|].
  rewrite <- Z2Qc_inj_0. intros Heq%Z2Qc_inj. lia.
Qed.

Lemma chrf_step_in_range st p r e (i : nat) :
  (3 * i + 2 < length st)%nat →
  CHRF.chrf_step st (p, r, e) i =
  Ok (if decide (effective st i)
      then (p + precision_at st i, r + recall_at st i, (e + 1)%Z)
      else (p, r, e)).
Proof.
  intros Hi. unfold CHRF.chrf_step.
  rewrite !getitem_entry by lia. cbn [mbind result_bind].
  destruct (decide (effective st i)) as [[Hh Hr]|Hn].
  - rewrite decide_True by lia.
    rewrite !truediv_pos by done. done.
  - rewrite decide_False; [done|]. intros [? ?]. apply Hn. split; lia.
Qed.

Lemma chrf_loop st (l : list nat) p r e :
  Forall (λ i, 3 * i + 2 < length st)%nat l →
  for_each l (CHRF.chrf_step st) (p, r, e) =
  Ok (p + sum_Qc (precision_at st <$> filter (effective st) l),
      r + sum_Qc (recall_at st <$> filter (effective st) l),
      (e + len (filter (effective st) l))%Z).
Proof.
  intros Hl. revert p r e.
  induction Hl as [|i l Hi Hl IH]; intros p r e.
  - cbn. by rewrite !Qcplus_0_r, Z.add_0_r.
  - cbn [for_each]. rewrite chrf_step_in_range by done.
    cbn [mbind result_bind]. rewrite filter_cons.
    destruct (decide (effective st i)).
    + rewrite IH. cbn [fmap list_fmap sum_Qc foldr].
      rewrite !Qcplus_assoc. unfold len. cbn [length].
      do 2 f_equal. lia.
    + by rewrite IH.
Qed.

Lemma range_in_vector st (order : Z) :
  (3 * order ≤ len st)%Z →
  Forall (λ i, 3 * i + 2 < length st)%nat (range order).
Proof.
  intros Hlen. apply Forall_forall. intros i Hi%elem_of_seq.
  unfold len in Hlen. lia.
Qed.

(** The loop and the averaging of [compute_chrf] compute the means of
    precision and recall over the effective orders. *)
Lemma chrf_averages_spec st (order : Z) :
  (3 * order ≤ len st)%Z →
  CHRF.chrf_averages st order =
  Ok (averaged_precision st order, averaged_recall st order).
Proof.
  intros Hlen. unfold CHRF.chrf_averages.
  rewrite chrf_loop by by apply range_in_vector.
  cbn [mbind result_bind]. rewrite !Qcplus_0_l, Z.add_0_l.
  unfold averaged_precision, averaged_recall, average.
  fold (effective_orders st order).
  destruct (effective_orders st order) as [|i eff] eqn:Heff.
  - done.
  - rewrite decide_False by (unfold len; cbn [length]; lia).
    rewrite !decide_False by done.
    unfold fdiv. rewrite decide_False.
    + cbn [mbind result_bind]. by rewrite decide_False.
    + rewrite <- Z2Qc_inj_0. intros Heq%Z2Qc_inj.
      unfold len in Heq. cbn [length] in Heq. lia.
Qed.
End ScorerLoop.

(** ** The scorer: the F-score of a vector of counts *)

Section ScorerValue.
Local Open Scope Qc_scope.
Implicit Types (st : list Z) (p r x y : Qc).

Lemma Qc_square_nonneg x : 0 ≤ x * x.
Proof.
  destruct (Qclt_le_dec x 0) as [Hneg|Hpos].
  - replace (x * x) with ((- x) * (- x)) by ring.
    assert (0 ≤ - x) as Hx.
    { apply Qclt_le_weak in Hneg. apply Qcopp_le_compat in Hneg.
      by replace (- 0) with 0 in Hneg by ring. }
    by apply Qcmult_nonneg_nonneg.
  - by apply Qcmult_nonneg_nonneg.
Qed.

Lemma Qc_sum_zero_r x y : 0 ≤ x → 0 ≤ y → x + y = 0 → y = 0.
Proof.
  intros Hx Hy Hxy. apply Qcle_antisym; [|done].
  rewrite <- Hxy. rewrite <- (Qcplus_0_l y) at 1.
  by apply Qcplus_le_mono_r.
Qed.

Lemma Qc_sum_zero_l x y : 0 ≤ x → 0 ≤ y → x + y = 0 → x = 0.
Proof.
  rewrite Qcplus_comm. intros Hx Hy Hxy. by apply (Qc_sum_zero_r y x).
Qed.

Lemma sum_Qc_nonneg (l : list Qc) : Forall (λ x, 0 ≤ x) l → 0 ≤ sum_Qc l.
Proof.
  induction 1 as [|x l Hx Hl IH]; cbn; [done|].
  by apply Qcplus_nonneg_nonneg.
Qed.

Lemma sum_Qc_zero (l : list Qc) :
  Forall (λ x, 0 ≤ x) l → sum_Qc l = 0 → Forall (λ x, x = 0) l.
Proof.
  induction 1 as [|x l Hx Hl IH]; cbn; [by constructor|].
  intros Hsum. pose proof (sum_Qc_nonneg l Hl) as Hs. constructor.
  - by apply (Qc_sum_zero_l x (sum_Qc l)).
  - apply IH. by apply (Qc_sum_zero_r x (sum_Qc l)).
Qed.

Lemma sum_Qc_all_zero (l : list Qc) : Forall (λ x, x = 0) l → sum_Qc l = 0.
Proof.
  unfold sum_Qc. induction 1 as [|x l -> Hl IH]; cbn [foldr]; [done|].
  by rewrite IH.
Qed.

Lemma Qc_of_Z_nonneg (a : Z) : (0 ≤ a)%Z → 0 ≤ Qc_of_Z a.
Proof. intros Ha. apply (proj1 (Z2Qc_inj_le 0 a)) in Ha. exact Ha. Qed.

Lemma Qc_of_Z_pos (b : Z) : (0 < b)%Z → 0 < Qc_of_Z b.
Proof. intros Hb. apply (proj1 (Z2Qc_inj_lt 0 b)) in Hb. exact Hb. Qed.

Lemma ratio_nonneg (a b : Z) :
  (0 ≤ a)%Z → (0 < b)%Z → 0 ≤ Qc_of_Z a / Qc_of_Z b.
Proof.
  intros Ha Hb. apply Qcmult_nonneg_nonneg.
  - by apply Qc_of_Z_nonneg.
  - by apply Qclt_le_weak, Qcinv_pos, Qc_of_Z_pos.
Qed.

Lemma div_zero_iff x y : y ≠ 0 → x / y = 0 ↔ x = 0.
Proof.
  intros Hy. split.
  - intros Hxy. rewrite <- (Qcmult_div_r x y Hy), Hxy. ring.
  - intros ->. unfold Qcdiv. ring.
Qed.

Lemma Qc_of_Z_pos_ne (b : Z) : (0 < b)%Z → Qc_of_Z b ≠ 0.
Proof. intros Hb. rewrite <- Z2Qc_inj_0. intros Heq%Z2Qc_inj. lia. Qed.

Lemma entry_nonneg st (i : nat) :
  Forall (λ z, 0 ≤ z)%Z st → (0 ≤ entry st i)%Z.
Proof.
  intros Hst. unfold entry. destruct (st !! i) eqn:Hi; cbn; [|lia].
  by apply (Forall_lookup_1 _ _ _ _ Hst Hi).
Qed.

Lemma average_nonneg (f : nat → Qc) (l : list nat) :
  Forall (λ i, 0 ≤ f i) l → 0 ≤ average f l.
Proof.
  intros Hl. unfold average. case_decide as Hnil; [done|].
  apply Qcmult_nonneg_nonneg.
  - apply sum_Qc_nonneg. by apply Forall_fmap.
  - apply Qclt_le_weak, Qcinv_pos, Qc_of_Z_pos.
    unfold len. destruct l; [done|]. cbn [length]. lia.
Qed.

Lemma average_zero (f : nat → Qc) (l : list nat) :
  Forall (λ i, 0 ≤ f i) l →
  average f l = 0 ↔ Forall (λ i, f i = 0) l.
Proof.
  intros Hl. unfold average. case_decide as Hnil.
  - subst l. split; [by constructor|done].
  - rewrite div_zero_iff.
    + split.
      * intros Hsum%sum_Qc_zero; [|by apply Forall_fmap].
        by apply Forall_fmap in Hsum.
      * intros Hz. apply sum_Qc_all_zero. by apply Forall_fmap.
    + apply Qc_of_Z_pos_ne. unfold len. destruct l; [done|].
      cbn [length]. lia.
Qed.

Lemma effective_orders_effective st (order : Z) :
  Forall (effective st) (effective_orders st order).
Proof.
  apply Forall_forall. intros i Hi.
  by apply list_elem_of_filter in Hi as [? _].
Qed.

Lemma precision_nonneg st (order : Z) :
  Forall (λ z, 0 ≤ z)%Z st → 0 ≤ averaged_precision st order.
Proof.
  intros Hst. apply average_nonneg.
  eapply Forall_impl; [apply effective_orders_effective|].
  intros i [Hh Hr]. apply ratio_nonneg; [by apply entry_nonneg|done].
Qed.

Lemma recall_nonneg st (order : Z) :
  Forall (λ z, 0 ≤ z)%Z st → 0 ≤ averaged_recall st order.
Proof.
  intros Hst. apply average_nonneg.
  eapply Forall_impl; [apply effective_orders_effective|].
  intros i [Hh Hr]. apply ratio_nonneg; [by apply entry_nonneg|done].
Qed.

(** With counts that are not negative, a zero recall means that no
    effective order has a common n-gram, so the precision is zero too. *)
Lemma recall_zero_precision_zero st (order : Z) :
  Forall (λ z, 0 ≤ z)%Z st →
  averaged_recall st order = 0 → averaged_precision st order = 0.
Proof.
  intros Hst. unfold averaged_recall, averaged_precision.
  pose proof (effective_orders_effective st order) as Heff.
  rewrite !average_zero.
  - intros Hz. apply Forall_forall. intros i Hi.
    pose proof (proj1 (Forall_forall _ _) Hz i Hi) as Hri.
    pose proof (proj1 (Forall_forall _ _) Heff i Hi) as [Hh Hr].
    unfold recall_at, precision_at in *.
    apply div_zero_iff in Hri; [|by apply Qc_of_Z_pos_ne].
    apply div_zero_iff; [by apply Qc_of_Z_pos_ne|done].
  - eapply Forall_impl; [exact Heff|].
    intros i [Hh Hr]. apply ratio_nonneg; [by apply entry_nonneg|done].
  - eapply Forall_impl; [exact Heff|].
    intros i [Hh Hr]. apply ratio_nonneg; [by apply entry_nonneg|done].
Qed.

Lemma to_float_square (beta : number) :
  to_float (square beta) = to_float beta * to_float beta.
Proof. destruct beta; cbn; [apply Z2Qc_inj_mul|done]. Qed.

Lemma f_beta_denominator (b p r : Qc) :
  0 ≤ p → 0 ≤ r → (r = 0 → p = 0) → p + r ≠ 0 → b * b * p + r ≠ 0.
Proof.
  intros Hp Hr Hrp Hsum Hden.
  assert (0 ≤ b * b * p) as Hbp
    by (apply Qcmult_nonneg_nonneg; [apply Qc_square_nonneg|done]).
  pose proof (Qc_sum_zero_r _ _ Hbp Hr Hden) as ->.
  apply Hsum. rewrite Hrp by done. ring.
Qed.

(** On a vector of non-negative counts the scorer raises nothing, and
    its score is the F-beta combination of the two averages. *)
Lemma chrf_fscore_spec st (order : Z) (beta : number) :
  (3 * order ≤ len st)%Z → Forall (λ z, 0 ≤ z)%Z st →
  CHRF.chrf_fscore st order beta =
  Ok (f_beta (to_float beta) (averaged_precision st order)
             (averaged_recall st order)).
Proof.
  intros Hlen Hst. unfold CHRF.chrf_fscore, f_beta.
  rewrite chrf_averages_spec by done. cbn [mbind result_bind].
  case_decide as Hsum; [done|].
  rewrite to_float_square. unfold fdiv. rewrite decide_False.
  - f_equal. by rewrite Qcmult_assoc.
  - apply f_beta_denominator; [by apply precision_nonneg
      |by apply recall_nonneg|by apply recall_zero_precision_zero|done].
Qed.
End ScorerValue.

Lemma compute_chrf_int st (order b : Z) :
  3 * order ≤ len st → Forall (λ z, 0 ≤ z) st →
  CHRF.compute_chrf st order (PyInt b) =
  Ok (CHRFScore.Build
        (f_beta (Qc_of_Z b) (averaged_precision st order)
                (averaged_recall st order))
        (PyInt b) order ("chrF" +:+ pretty b)).
Proof.
  intros Hlen Hst. unfold CHRF.compute_chrf.
  by rewrite chrf_fscore_spec by done.
Qed.

Lemma compute_chrf_float st (order : Z) (q : Qc) :
  3 * order ≤ len st → Forall (λ z, 0 ≤ z) st →
  CHRF.compute_chrf st order (PyFloat q) = Raise ValueError.
Proof.
  intros Hlen Hst. unfold CHRF.compute_chrf.
  by rewrite chrf_fscore_spec by done.
Qed.

(** Whatever the vector, a score object is only ever built for an integer
    beta. *)
Lemma compute_chrf_Ok_int st (order : Z) (beta : number) sc :
  CHRF.compute_chrf st order beta = Ok sc → ∃ b, beta = PyInt b.
Proof.
  unfold CHRF.compute_chrf. destruct (CHRF.chrf_fscore st order beta);
    [|done].
  destruct beta as [b|q]; [by exists b|done].
Qed.

Definition default_metric : CHRF.t :=
  CHRF.init false CHRF.ORDER CHRF.BETA false 1.


(** ** A hypothesis scored against itself *)

Section Identity.
Local Open Scope Qc_scope.

Lemma Qc_one_pos : (0 : Qc) < 1.
Proof. done. Qed.

Lemma average_one (f : nat → Qc) (l : list nat) :
  l ≠ [] → Forall (λ i, f i = 1) l → average f l = 1.
Proof.
  intros Hne Hl. unfold average. rewrite decide_False by done.
  assert (sum_Qc (f <$> l) = Qc_of_Z (len l)) as ->.
  { clear Hne. unfold len, sum_Qc.
    induction Hl as [|i l Hi Hl IH]; [by rewrite <- Z2Qc_inj_0|].
    cbn [fmap list_fmap foldr length]. rewrite Hi, IH.
    by rewrite Nat2Z.inj_succ, <- Z.add_1_l, Z2Qc_inj_add, Z2Qc_inj_1. }
  apply Qcmult_inv_r, Qc_of_Z_pos_ne.
  unfold len. destruct l; [done|]. cbn [length]. lia.
Qed.

Lemma f_beta_one (b : Qc) : f_beta b 1 1 = 1.
Proof.
  assert (0 < b * b + 1) as Hpos
    by (apply Qcplus_nonneg_pos; [apply Qc_square_nonneg|apply Qc_one_pos]).
  apply Qclt_not_eq, not_eq_sym in Hpos.
  unfold f_beta. rewrite decide_False.
  - rewrite !Qcmult_1_r, (Qcplus_comm 1). by apply Qcmult_inv_r.
  - apply not_eq_sym, Qclt_not_eq.
    apply Qcplus_pos_pos; apply Qc_one_pos.
Qed.

Lemma entry_sentence_vector self hypothesis reference (i j : nat) :
  (i < Z.to_nat (CHRF.order self))%nat → (j < 3)%nat →
  entry (sentence_vector self hypothesis reference) (3 * i + j) =
  default 0%Z (triplet (CHRF.tokenizer self hypothesis)
                       (CHRF.tokenizer self reference) (i + 1) !! j).
Proof.
  intros Hi Hj. unfold entry, sentence_vector.
  by rewrite triplets_lookup by done.
Qed.

Lemma triplet_same (line : str) (n : nat) :
  triplet line line n =
  let a := sum_values (extract_char_ngrams line n) in [a; a; a].
Proof.
  unfold triplet, Counter_and.
  by rewrite (idemp (∩) (extract_char_ngrams line n)).
Qed.

Context (self : CHRF.t) (s : str).
Hypothesis order_pos : (1 ≤ CHRF.order self)%Z.
Hypothesis tokens : CHRF.tokenizer self s ≠ [].

Lemma identity_entries (i j : nat) :
  (i < Z.to_nat (CHRF.order self))%nat → (j < 3)%nat →
  entry (sentence_vector self s s) (3 * i + j) =
  sum_values (extract_char_ngrams (CHRF.tokenizer self s) (i + 1)).
Proof.
  intros Hi Hj. rewrite entry_sentence_vector, triplet_same by done.
  cbv zeta. by destruct j as [|[|[|j]]]; [..|lia].
Qed.

Lemma identity_effective_first :
  effective_orders (sentence_vector self s s) (CHRF.order self) ≠ [].
Proof.
  assert (0%nat ∈ effective_orders (sentence_vector self s s)
                    (CHRF.order self)) as Hin; [|by intros Heq; rewrite Heq in Hin;
                                                  apply not_elem_of_nil in Hin].
  apply list_elem_of_filter. split.
  - unfold effective. rewrite !identity_entries by lia.
    rewrite extract_char_ngrams_total. unfold len.
    destruct (CHRF.tokenizer self s); [done|]. cbn [length]. lia.
  - apply elem_of_seq. lia.
Qed.

Lemma identity_ratios (i : nat) :
  i ∈ effective_orders (sentence_vector self s s) (CHRF.order self) →
  precision_at (sentence_vector self s s) i = 1 ∧
  recall_at (sentence_vector self s s) i = 1.
Proof.
  intros [[Hh Hr] Hi%elem_of_seq]%list_elem_of_filter.
  unfold precision_at, recall_at.
  rewrite !identity_entries in * by lia.
  split; by apply Qcmult_inv_r, Qc_of_Z_pos_ne.
Qed.

Lemma identity_score (b : Z) :
  CHRF.beta self = PyInt b →
  CHRF.sentence_score self s (RefList [s]) =
  Ok (CHRFScore.Build 1 (PyInt b) (CHRF.order self) ("chrF" +:+ pretty b)).
Proof.
  intros Hbeta. unfold CHRF.sentence_score.
  rewrite get_sentence_statistics_cons. cbn [mbind result_bind].
  pose proof (sentence_vector_valid self s s) as (Hlen & Hnn & _); [lia|].
  rewrite Hbeta, compute_chrf_int by (done || lia).
  f_equal. f_equal. unfold averaged_precision, averaged_recall.
  rewrite !average_one; [apply f_beta_one|
    apply identity_effective_first|..|apply identity_effective_first|].
  - apply Forall_forall. intros i Hi. by apply identity_ratios.
  - apply Forall_forall. intros i Hi. by apply identity_ratios.
Qed.
End Identity.

(** ** The corpus driver: one step of the walk *)

Lemma for_each_app {S B} (l1 l2 : list B) (body : S → B → result S) (s : S) :
  for_each (l1 ++ l2) body s = (s' ← for_each l1 body s; for_each l2 body s').
Proof.
  revert s. induction l1 as [|x l1 IH]; intros s; [done|].
  cbn [app for_each]. destruct (body s x); cbn [mbind result_bind]; [apply IH|done].
Qed.

(** The loop that adds a sentence vector into the corpus vector, seen
    after [length done] of its iterations. *)
Lemma accumulate_loop (st done todo : list Z) :
  length (done ++ todo) = length st →
  for_each (seq (length done) (length todo))
    (λ corpus_statistics i,
       x ← getitem corpus_statistics i;
       y ← getitem st i;
       setitem corpus_statistics i (x + y)) (done ++ todo) =
  Ok (done ++ zip_with Z.add todo (drop (length done) st)).
Proof.
  revert done. induction todo as [|x todo IH]; intros done Hlen.
  - cbn. by rewrite app_nil_r.
  - cbn [length seq for_each].
    rewrite getitem_middle by done. cbn [mbind result_bind].
    destruct (lookup_lt_is_Some_2 st (length done)) as [y Hy].
    { rewrite <- Hlen, length_app. cbn. lia. }
    rewrite (getitem_Some _ _ _ Hy). cbn [mbind result_bind].
    rewrite setitem_middle by done. cbn [mbind result_bind].
    rewrite (drop_S _ _ _ Hy). cbn [zip_with].
    rewrite (cons_middle _ done), (assoc (++)).
    replace (S (length done)) with (length (done ++ [x + y]))
      by (rewrite length_app; cbn; lia).
    rewrite IH; [by rewrite <- (assoc (++))|].
    rewrite <- Hlen, !length_app. cbn. lia.
Qed.

Lemma accumulate (st corpus_statistics : list Z) :
  length corpus_statistics = length st →
  for_each (range (len st))
    (λ corpus_statistics i,
       x ← getitem corpus_statistics i;
       y ← getitem st i;
       setitem corpus_statistics i (x + y)) corpus_statistics =
  Ok (vec_add corpus_statistics st).
Proof.
  intros Hlen. unfold range, len. rewrite Nat2Z.id, <- Hlen.
  pose proof (accumulate_loop st [] corpus_statistics Hlen) as Hloop.
  cbn [length app] in Hloop. by rewrite Hloop, drop_0.
Qed.

Lemma None_not_in_Some {B} (l : list B) : None ∉ (Some <$> l).
Proof. by intros (x & ? & _)%list_elem_of_fmap. Qed.

Lemma omap_id_Some {B} (l : list B) : omap id (Some <$> l) = l.
Proof. induction l as [|x l IH]; cbn; [done|]. by rewrite IH. Qed.

Lemma complete_tuple {B} (lines : list (option B)) :
  None ∉ lines → lines = Some <$> omap id lines.
Proof.
  induction lines as [|[x|] lines IH]; intros Hnone; cbn.
  - done.
  - rewrite <- IH; [done|]. intros Hin. apply Hnone. by right.
  - exfalso. apply Hnone. by left.
Qed.

(** The lines that the streams hold at position [i]. *)
Definition column {B} (fhs : list (list B)) (i : nat) : list B :=
  omap (λ fh, fh !! i) fhs.

(** The statistics vector of an aligned tuple: a hypothesis followed by
    its references. *)
Definition tuple_vector (self : CHRF.t) (tuple : list str) : list Z :=
  match tuple with
  | hypothesis :: reference :: _ => sentence_vector self hypothesis reference
  | _ => []
  end.

Section CorpusStep.
Context (self : CHRF.t).
Implicit Types (cs : list Z) (lines : list (option str)).

Lemma corpus_step_missing cs lines :
  None ∈ lines → CHRF.corpus_step self cs lines = Raise EOFError.
Proof. intros Hin. unfold CHRF.corpus_step. by rewrite decide_True. Qed.

Lemma corpus_step_complete cs hypothesis reference rest :
  length cs = Z.to_nat (CHRF.order self * 3) →
  CHRF.corpus_step self cs (Some <$> hypothesis :: reference :: rest) =
  Ok (vec_add cs (sentence_vector self hypothesis reference)).
Proof.
  intros Hlen. unfold CHRF.corpus_step.
  rewrite decide_False by apply None_not_in_Some.
  rewrite omap_id_Some, get_sentence_statistics_cons.
  cbn [mbind result_bind]. apply accumulate.
  by rewrite sentence_vector_length.
Qed.

Lemma corpus_step_no_reference cs hypothesis :
  CHRF.corpus_step self cs [Some hypothesis] = Raise IndexError.
Proof.
  unfold CHRF.corpus_step.
  rewrite decide_False by apply (None_not_in_Some [hypothesis]). done.
Qed.

Lemma vec_add_length cs st :
  length st = length cs → length (vec_add cs st) = length cs.
Proof. intros Hlen. unfold vec_add. rewrite length_zip_with. lia. Qed.

(** A walk over complete tuples, each with at least one reference,
    raises nothing and adds up the sentence vectors. *)
Lemma corpus_walk_complete (tuples : list (list str)) cs :
  Forall (λ tuple, 2 ≤ length tuple)%nat tuples →
  length cs = Z.to_nat (CHRF.order self * 3) →
  for_each ((λ tuple : list str, Some <$> tuple) <$> tuples)
    (CHRF.corpus_step self) cs =
  Ok (foldl vec_add cs (tuple_vector self <$> tuples)).
Proof.
  intros Htuples. revert cs.
  induction Htuples as [|tuple tuples Htuple _ IH]; intros cs Hlen; [done|].
  rewrite (fmap_cons _ tuple tuples), (fmap_cons (tuple_vector self)).
  destruct tuple as [|h [|r rest]]; [cbn in Htuple; lia..|].
  cbn [for_each foldl].
  rewrite corpus_step_complete by done. cbn [mbind result_bind].
  apply IH. rewrite vec_add_length; [done|].
  cbn [tuple_vector]. by rewrite sentence_vector_length.
Qed.
End CorpusStep.

(** ** The corpus driver: the walk over the streams *)

(** The streams that [corpus_score] walks, after a single string has been
    wrapped. *)
Definition sys_lines (a : sys_arg) : list str :=
  match a with SysStr s => [s] | SysStream l => l end.
Definition ref_lines (a : refs_arg) : list (list str) :=
  match a with RefsStr s => [[s]] | RefStreams l => l end.

Definition zeros (self : CHRF.t) : list Z :=
  replicate (Z.to_nat (CHRF.order self * 3)) 0.

(** The corpus vector when the loop of [corpus_score] ends. *)
Definition corpus_walk (self : CHRF.t) (fhs : list (list str))
  : result (list Z) :=
  for_each (zip_longest fhs) (CHRF.corpus_step self) (zeros self).

(** Every reference stream is as long as the hypothesis stream. *)
Definition equal_lengths {B} (hyps : list B) (refs : list (list B)) : Prop :=
  Forall (λ fh, length fh = length hyps) refs.

(** The length of the shortest of the streams [hyps :: refs]. *)
Definition shortest {B} (hyps : list B) (refs : list (list B)) : nat :=
  foldr (λ fh m, length fh `min` m)%nat (length hyps) refs.

(** The hypotheses, each with the lines of the reference streams at its
    position. *)
Definition aligned (hyps : list str) (refs : list (list str))
  : list (str * list str) :=
  imap (λ i h, (h, column refs i)) hyps.

Lemma corpus_score_walk self sys refs :
  CHRF.corpus_score self sys refs =
  (cs ← corpus_walk self (sys_lines sys :: ref_lines refs);
   CHRF.compute_chrf cs (CHRF.order self) (CHRF.beta self)).
Proof. by destruct sys, refs. Qed.

Section Streams.
Context {B : Type}.
Implicit Types (fh hyps : list B) (fhs refs : list (list B)) (i k : nat).

Lemma longest_ge fh fhs :
  fh ∈ fhs → (length fh ≤ max_list (length <$> fhs))%nat.
Proof.
  intros Hin. apply max_list_elem_of_le, list_elem_of_fmap. by exists fh.
Qed.

Lemma shortest_le hyps refs :
  Forall (λ fh, shortest hyps refs ≤ length fh)%nat (hyps :: refs).
Proof.
  unfold shortest. induction refs as [|fh refs IH]; cbn [foldr].
  - by repeat constructor.
  - apply Forall_cons in IH as [Hh Hrefs]. repeat constructor; [lia..|].
    eapply Forall_impl; [exact Hrefs|]. intros ? ?. cbn in *. lia.
Qed.

Lemma shortest_attained hyps refs :
  ∃ fh, fh ∈ hyps :: refs ∧ length fh = shortest hyps refs.
Proof.
  unfold shortest. induction refs as [|fh refs (fh' & Hin & Hlen)];
    cbn [foldr].
  - exists hyps. split; [by left|done].
  - destruct (Nat.min_spec (length fh)
                (foldr (λ fh m, length fh `min` m)%nat (length hyps) refs))
      as [[_ Hmin]|[_ Hmin]]; rewrite Hmin.
    + exists fh. split; [by right; left|done].
    + exists fh'. split; [|done].
      apply elem_of_cons in Hin as [->|Hin]; [by left|by right; right].
Qed.

Lemma zip_longest_length fhs :
  length (zip_longest fhs) = max_list (length <$> fhs).
Proof. unfold zip_longest. by rewrite length_fmap, length_seq. Qed.

Lemma zip_longest_lookup fhs i :
  (i < max_list (length <$> fhs))%nat →
  zip_longest fhs !! i = Some ((λ fh, fh !! i) <$> fhs).
Proof.
  intros Hi. unfold zip_longest.
  by rewrite list_lookup_fmap, lookup_seq_lt.
Qed.

Lemma tuple_complete fhs i :
  Forall (λ fh, i < length fh)%nat fhs →
  (λ fh, fh !! i) <$> fhs = Some <$> column fhs i.
Proof.
  unfold column. induction 1 as [|fh fhs Hfh _ IH]; [done|].
  destruct (lookup_lt_is_Some_2 fh i Hfh) as [x Hx].
  cbn [fmap list_fmap omap list_omap]. rewrite Hx. cbn. by f_equal.
Qed.

Lemma tuple_missing fhs fh i :
  fh ∈ fhs → (length fh ≤ i)%nat → None ∈ (λ fh, fh !! i) <$> fhs.
Proof.
  intros Hin Hlen. apply list_elem_of_fmap. exists fh.
  split; [|done]. symmetry. by apply lookup_ge_None.
Qed.

Lemma column_length fhs i :
  Forall (λ fh, i < length fh)%nat fhs → length (column fhs i) = length fhs.
Proof.
  intros Hall. pose proof (f_equal length (tuple_complete fhs i Hall)) as Hl.
  by rewrite !length_fmap in Hl.
Qed.

(** The first [k] tuples of the walk are complete when no stream has
    fewer than [k] lines. *)
Lemma zip_longest_take hyps refs k :
  Forall (λ fh, k ≤ length fh)%nat (hyps :: refs) →
  take k (zip_longest (hyps :: refs)) =
  (λ tuple : list B, Some <$> tuple) <$>
    (column (hyps :: refs) <$> seq 0 k).
Proof.
  intros Hall. unfold zip_longest.
  assert (k ≤ max_list (length <$> hyps :: refs))%nat as Hk.
  { apply Forall_cons in Hall as [Hh _].
    etrans; [exact Hh|]. apply longest_ge. by left. }
  rewrite <- fmap_take, take_seq, Nat.min_l by done.
  rewrite <- list_fmap_compose. apply list_fmap_ext.
  intros j i Hi. apply lookup_seq in Hi as [-> Hj]. apply tuple_complete.
  eapply Forall_impl; [exact Hall|]. intros fh ?. cbn in *. lia.
Qed.
End Streams.

Lemma max_list_le (l : list nat) (m : nat) :
  Forall (λ n, n ≤ m)%nat l → (max_list l ≤ m)%nat.
Proof. induction 1 as [|n l Hn _ IH]; cbn; lia. Qed.

Section CorpusWalk.
Context (self : CHRF.t).
Implicit Types (hyps : list str) (refs : list (list str)).

Lemma zeros_length : length (zeros self) = Z.to_nat (CHRF.order self * 3).
Proof. apply length_replicate. Qed.

(** The sum of the sentence vectors of the first [k] aligned tuples. *)
Definition pooled hyps refs (k : nat) : list Z :=
  foldl vec_add (zeros self)
    (tuple_vector self <$> (column (hyps :: refs) <$> seq 0 k)).

Lemma corpus_walk_prefix hyps refs (k : nat) :
  refs ≠ [] → Forall (λ fh, k ≤ length fh)%nat (hyps :: refs) →
  for_each (take k (zip_longest (hyps :: refs))) (CHRF.corpus_step self)
    (zeros self) = Ok (pooled hyps refs k).
Proof.
  intros Hrefs Hall. rewrite zip_longest_take by done.
  apply corpus_walk_complete; [|apply zeros_length].
  apply Forall_fmap, Forall_forall. intros i Hi%elem_of_seq.
  unfold compose. rewrite column_length.
  - destruct refs; [done|]. cbn [length]. lia.
  - eapply Forall_impl; [exact Hall|]. intros fh ?. cbn in *. lia.
Qed.

Lemma corpus_walk_equal hyps refs :
  refs ≠ [] → equal_lengths hyps refs →
  corpus_walk self (hyps :: refs) = Ok (pooled hyps refs (length hyps)).
Proof.
  intros Hrefs Heq. unfold corpus_walk.
  rewrite <- (take_ge (zip_longest (hyps :: refs)) (length hyps)).
  - apply corpus_walk_prefix; [done|]. constructor; [done|].
    eapply Forall_impl; [exact Heq|]. intros fh ?. cbn in *. lia.
  - rewrite zip_longest_length. apply max_list_le.
    rewrite fmap_cons. constructor; [done|]. apply Forall_fmap.
    eapply Forall_impl; [exact Heq|]. intros fh ?. cbn in *. lia.
Qed.

(** With streams of different lengths, the tuples before the end of the
    shortest stream are walked without an error, and the next tuple, which
    misses a line, raises [EOFError]. *)
Lemma corpus_walk_first_missing hyps refs :
  ¬ equal_lengths hyps refs →
  let k := shortest hyps refs in
  for_each (take k (zip_longest (hyps :: refs))) (CHRF.corpus_step self)
    (zeros self) = Ok (pooled hyps refs k) ∧
  ∃ tuple, zip_longest (hyps :: refs) !! k = Some tuple ∧ None ∈ tuple ∧
           ∀ cs, CHRF.corpus_step self cs tuple = Raise EOFError.
Proof.
  intros Hneq k.
  assert (refs ≠ []) as Hrefs by (intros ->; apply Hneq; constructor).
  pose proof (shortest_le hyps refs) as Hle. fold k in Hle.
  split; [by apply corpus_walk_prefix|].
  assert (k < max_list (length <$> hyps :: refs))%nat as Hk.
  { apply not_Forall_Exists in Hneq; [|apply _].
    apply Exists_exists in Hneq as (fh & Hin & Hlen). cbn in Hlen.
    pose proof (proj1 (Forall_forall _ _) Hle hyps) as Hh.
    pose proof (proj1 (Forall_forall _ _) Hle fh) as Hfh.
    pose proof (longest_ge hyps (hyps :: refs)) as Hmh.
    pose proof (longest_ge fh (hyps :: refs)) as Hmf.
    specialize (Hh ltac:(by left)). specialize (Hfh ltac:(by right)).
    specialize (Hmh ltac:(by left)). specialize (Hmf ltac:(by right)).
    cbn in *. lia. }
  eexists. split; [by apply zip_longest_lookup|].
  destruct (shortest_attained hyps refs) as (fh & Hin & Hlen).
  assert (None ∈ (λ fh, fh !! k) <$> hyps :: refs) as Hnone.
  { apply (tuple_missing _ fh); [done|]. fold k in Hlen. lia. }
  split; [done|]. intros cs. by apply corpus_step_missing.
Qed.

Lemma corpus_walk_mismatch hyps refs :
  ¬ equal_lengths hyps refs →
  corpus_walk self (hyps :: refs) = Raise EOFError.
Proof.
  intros Hneq.
  destruct (corpus_walk_first_missing hyps refs Hneq)
    as (Hprefix & tuple & Hk & _ & Hraise).
  unfold corpus_walk.
  rewrite <- (take_drop_middle _ _ _ Hk), for_each_app, Hprefix.
  cbn [mbind result_bind for_each]. by rewrite Hraise.
Qed.

Lemma corpus_walk_no_reference hypothesis hyps :
  corpus_walk self [hypothesis :: hyps] = Raise IndexError.
Proof.
  unfold corpus_walk, zip_longest.
  cbn [fmap list_fmap length max_list max_list_with].
  rewrite Nat.max_0_r. unfold id.
  cbn [seq fmap list_fmap lookup list_lookup for_each].
  by rewrite corpus_step_no_reference.
Qed.
End CorpusWalk.

(** ** Pooled vectors *)

Section Pooled.
Context (self : CHRF.t).
Implicit Types (hyps : list str) (refs : list (list str)) (cs : list Z).

Lemma tuple_vector_cons hypothesis reference rest :
  tuple_vector self (hypothesis :: reference :: rest) =
  sentence_vector self hypothesis reference.
Proof. done. Qed.

Lemma column_cons hyps refs (i : nat) hypothesis :
  hyps !! i = Some hypothesis →
  column (hyps :: refs) i = hypothesis :: column refs i.
Proof. intros Hi. unfold column. cbn [omap list_omap]. by rewrite Hi. Qed.

(** The tuples of a complete prefix hold a hypothesis and at least one
    reference. *)
Lemma complete_columns hyps refs (k i : nat) :
  refs ≠ [] → Forall (λ fh, k ≤ length fh)%nat (hyps :: refs) →
  (i < k)%nat →
  ∃ hypothesis reference rest,
    hyps !! i = Some hypothesis ∧
    column refs i = reference :: rest ∧
    column (hyps :: refs) i = hypothesis :: reference :: rest.
Proof.
  intros Hrefs Hall Hi. apply Forall_cons in Hall as [Hh Hr].
  destruct (lookup_lt_is_Some_2 hyps i) as [h Hlook]; [lia|].
  destruct refs as [|fh refs]; [done|].
  apply Forall_cons in Hr as [Hfh _].
  destruct (lookup_lt_is_Some_2 fh i) as [r Hr]; [lia|].
  exists h, r, (column refs i).
  assert (column (fh :: refs) i = r :: column refs i) as Hcol
    by by apply column_cons.
  split_and!; [done..|]. by rewrite (column_cons _ _ _ h), Hcol.
Qed.

Lemma pooled_vectors hyps refs (k : nat) :
  refs ≠ [] → Forall (λ fh, k ≤ length fh)%nat (hyps :: refs) →
  Forall (λ v, ∃ hypothesis reference,
                 v = sentence_vector self hypothesis reference)
    (tuple_vector self <$> (column (hyps :: refs) <$> seq 0 k)).
Proof.
  intros Hrefs Hall. rewrite <- list_fmap_compose.
  apply Forall_fmap, Forall_forall. intros i Hi%elem_of_seq.
  destruct (complete_columns hyps refs k i) as (h & r & rest & _ & _ & Hc);
    [done..|lia|].
  exists h, r. unfold compose. by rewrite Hc.
Qed.

Lemma foldl_vec_add_scorable cs (vs : list (list Z)) :
  length cs = Z.to_nat (CHRF.order self * 3) → Forall (λ z, 0 ≤ z) cs →
  Forall (λ v, ∃ hypothesis reference,
                 v = sentence_vector self hypothesis reference) vs →
  length (foldl vec_add cs vs) = Z.to_nat (CHRF.order self * 3) ∧
  Forall (λ z, 0 ≤ z) (foldl vec_add cs vs).
Proof.
  intros Hlen Hnn Hvs. revert cs Hlen Hnn.
  induction Hvs as [|v vs (h & r & ->) _ IH]; intros cs Hlen Hnn; [done|].
  cbn [foldl]. apply IH.
  - rewrite vec_add_length; [done|]. by rewrite sentence_vector_length.
  - apply Forall_lookup. intros i x. unfold vec_add.
    rewrite lookup_zip_with_Some. intros (x1 & x2 & -> & Hx1 & Hx2).
    pose proof (Forall_lookup_1 _ _ _ _ Hnn Hx1).
    pose proof (Forall_lookup_1 _ _ _ _
                  (triplets_nonneg _ _ _ _) Hx2). cbn in *. lia.
Qed.

Lemma zeros_nonneg : Forall (λ z, 0 ≤ z) (zeros self).
Proof. apply Forall_replicate. lia. Qed.

Lemma zeros_valid :
  0 ≤ CHRF.order self → valid_statistics (CHRF.order self) (zeros self).
Proof.
  intros Hord. split_and!.
  - unfold len. rewrite zeros_length. lia.
  - apply zeros_nonneg.
  - unfold zeros. intros i h r c Hh Hr Hc.
    apply lookup_replicate in Hh as [-> _].
    apply lookup_replicate in Hr as [-> _].
    apply lookup_replicate in Hc as [-> _]. lia.
Qed.

Lemma foldl_vec_add_valid cs (vs : list (list Z)) :
  valid_statistics (CHRF.order self) cs →
  Forall (valid_statistics (CHRF.order self)) vs →
  valid_statistics (CHRF.order self) (foldl vec_add cs vs).
Proof.
  intros Hcs Hvs. revert cs Hcs.
  induction Hvs as [|v vs Hv _ IH]; intros cs Hcs; [done|].
  cbn [foldl]. by apply IH, vec_add_valid.
Qed.

Lemma pooled_scorable hyps refs (k : nat) :
  refs ≠ [] → Forall (λ fh, k ≤ length fh)%nat (hyps :: refs) →
  3 * CHRF.order self ≤ len (pooled self hyps refs k) ∧
  Forall (λ z, 0 ≤ z) (pooled self hyps refs k).
Proof.
  intros Hrefs Hall.
  destruct (foldl_vec_add_scorable (zeros self)
              (tuple_vector self <$> (column (hyps :: refs) <$> seq 0 k)))
    as [Hlen Hnn]; [apply zeros_length|apply zeros_nonneg
                   |by apply pooled_vectors|].
  split; [|done]. unfold len, pooled. rewrite Hlen. lia.
Qed.

Lemma pooled_valid hyps refs (k : nat) :
  0 ≤ CHRF.order self →
  refs ≠ [] → Forall (λ fh, k ≤ length fh)%nat (hyps :: refs) →
  valid_statistics (CHRF.order self) (pooled self hyps refs k).
Proof.
  intros Hord Hrefs Hall. apply foldl_vec_add_valid; [by apply zeros_valid|].
  eapply Forall_impl; [by apply pooled_vectors|].
  intros v (h & r & ->). by apply sentence_vector_valid.
Qed.

Lemma equal_lengths_all hyps refs :
  equal_lengths hyps refs →
  Forall (λ fh, length hyps ≤ length fh)%nat (hyps :: refs).
Proof.
  intros Heq. constructor; [done|].
  eapply Forall_impl; [exact Heq|]. intros fh ?. cbn in *. lia.
Qed.

(** The sentence vectors that are pooled are the ones that
    [get_sentence_statistics] returns on the aligned tuples. *)
Lemma aligned_vectors hyps refs :
  refs ≠ [] → equal_lengths hyps refs →
  Forall2 (λ p v, CHRF.get_sentence_statistics self p.1 p.2 = Ok v)
    (aligned hyps refs)
    (tuple_vector self <$> (column (hyps :: refs) <$> seq 0 (length hyps))).
Proof.
  intros Hrefs Heq. apply Forall2_same_length_lookup_2.
  - unfold aligned. by rewrite length_imap, !length_fmap, length_seq.
  - intros i p v. unfold aligned.
    rewrite list_lookup_imap, !list_lookup_fmap.
    intros Hp Hv.
    destruct (hyps !! i) as [h'|] eqn:Hh; [|done].
    assert (i < length hyps)%nat as Hi by by eapply lookup_lt_Some.
    rewrite lookup_seq_lt in Hv by done.
    cbn [fmap option_fmap option_map] in Hp, Hv.
    injection Hp as <-. injection Hv as <-.
    destruct (complete_columns hyps refs (length hyps) i)
      as (h & r & rest & Hh' & Hc & Hc');
      [done|by apply equal_lengths_all|done|].
    rewrite Hh. cbn [fst snd]. rewrite Hc.
    apply get_sentence_statistics_cons.
Qed.
End Pooled.

(** ** The outcomes of the corpus walk and of the scoring calls *)

#[global] Instance equal_lengths_dec {B} (hyps : list B) (refs : list (list B)) :
  Decision (equal_lengths hyps refs).
Proof. unfold equal_lengths. apply _. Defined.

Section Outcomes.
Context (self : CHRF.t).
Implicit Types (hyps : list str) (refs : list (list str)).

(** The walk ends in one of four ways. *)
Lemma corpus_walk_cases hyps refs :
  (¬ equal_lengths hyps refs ∧
   corpus_walk self (hyps :: refs) = Raise EOFError) ∨
  (equal_lengths hyps refs ∧ refs = [] ∧ hyps = [] ∧
   corpus_walk self (hyps :: refs) = Ok (zeros self)) ∨
  (equal_lengths hyps refs ∧ refs = [] ∧ hyps ≠ [] ∧
   corpus_walk self (hyps :: refs) = Raise IndexError) ∨
  (equal_lengths hyps refs ∧ refs ≠ [] ∧
   corpus_walk self (hyps :: refs) = Ok (pooled self hyps refs (length hyps))).
Proof.
  destruct (decide (equal_lengths hyps refs)) as [Heq|Hneq].
  - right. destruct refs as [|fh refs].
    + destruct hyps as [|h hyps].
      * left. by split_and!.
      * right; left. split_and!; [done..|].
        apply corpus_walk_no_reference.
    + right; right. split_and!; [done..|]. by apply corpus_walk_equal.
  - left. split; [done|]. by apply corpus_walk_mismatch.
Qed.

Lemma compute_chrf_scorable st (beta : number) :
  3 * CHRF.order self ≤ len st → Forall (λ z, 0 ≤ z) st →
  CHRF.compute_chrf st (CHRF.order self) beta =
  CHRFScore.init
    (f_beta (to_float beta) (averaged_precision st (CHRF.order self))
            (averaged_recall st (CHRF.order self)))
    beta (CHRF.order self).
Proof.
  intros Hlen Hnn. unfold CHRF.compute_chrf.
  by rewrite chrf_fscore_spec by done.
Qed.

Lemma init_outcome (sc : Qc) (beta : number) (order : Z) :
  (∃ b, beta = PyInt b ∧
        CHRFScore.init sc beta order =
        Ok (CHRFScore.Build sc beta order ("chrF" +:+ pretty b))) ∨
  (∃ q, beta = PyFloat q ∧ CHRFScore.init sc beta order = Raise ValueError).
Proof. destruct beta as [b|q]; [left; by exists b|right; by exists q]. Qed.

Lemma zeros_scorable :
  3 * CHRF.order self ≤ len (zeros self) ∧ Forall (λ z, 0 ≤ z) (zeros self).
Proof.
  split; [|apply zeros_nonneg]. unfold len. rewrite zeros_length. lia.
Qed.

Lemma sentence_vector_scorable hypothesis reference :
  3 * CHRF.order self ≤ len (sentence_vector self hypothesis reference) ∧
  Forall (λ z, 0 ≤ z) (sentence_vector self hypothesis reference).
Proof.
  split; [|apply triplets_nonneg].
  unfold len. rewrite sentence_vector_length. lia.
Qed.

(** The score of a sentence with at least one reference. *)
Lemma sentence_score_cons hypothesis reference rest :
  CHRF.sentence_score self hypothesis (RefList (reference :: rest)) =
  CHRFScore.init
    (f_beta (to_float (CHRF.beta self))
       (averaged_precision (sentence_vector self hypothesis reference)
          (CHRF.order self))
       (averaged_recall (sentence_vector self hypothesis reference)
          (CHRF.order self)))
    (CHRF.beta self) (CHRF.order self).
Proof.
  unfold CHRF.sentence_score. rewrite get_sentence_statistics_cons.
  cbn [mbind result_bind].
  by apply compute_chrf_scorable; apply sentence_vector_scorable.
Qed.

(** The score of a corpus whose streams have the same length, with at
    least one reference stream. *)
Lemma corpus_score_equal (sys : sys_arg) (refs : refs_arg) :
  ref_lines refs ≠ [] → equal_lengths (sys_lines sys) (ref_lines refs) →
  let cs := pooled self (sys_lines sys) (ref_lines refs)
              (length (sys_lines sys)) in
  CHRF.corpus_score self sys refs =
  CHRFScore.init
    (f_beta (to_float (CHRF.beta self))
       (averaged_precision cs (CHRF.order self))
       (averaged_recall cs (CHRF.order self)))
    (CHRF.beta self) (CHRF.order self).
Proof.
  intros Hrefs Heq cs. rewrite corpus_score_walk, corpus_walk_equal by done.
  cbn [mbind result_bind].
  by apply compute_chrf_scorable;
    apply pooled_scorable; [| apply equal_lengths_all | | apply equal_lengths_all].
Qed.

Lemma corpus_score_EOFError (sys : sys_arg) (refs : refs_arg) :
  CHRF.corpus_score self sys refs = Raise EOFError ↔
  ¬ equal_lengths (sys_lines sys) (ref_lines refs).
Proof.
  rewrite corpus_score_walk.
  destruct (corpus_walk_cases (sys_lines sys) (ref_lines refs))
    as [[Hneq Hw]|[(Heq & _ & _ & Hw)|[(Heq & _ & _ & Hw)|(Heq & Hrefs & Hw)]]];
    rewrite Hw; cbn [mbind result_bind].
  - done.
  - rewrite compute_chrf_scorable by apply zeros_scorable.
    split; [|done]. intros Hr.
    by destruct (init_outcome
         (f_beta (to_float (CHRF.beta self))
            (averaged_precision (zeros self) (CHRF.order self))
            (averaged_recall (zeros self) (CHRF.order self)))
         (CHRF.beta self) (CHRF.order self))
      as [(b & _ & Hi)|(q & _ & Hi)]; rewrite Hi in Hr.
  - done.
  - rewrite compute_chrf_scorable
      by (apply pooled_scorable; [done|by apply equal_lengths_all]).
    split; [|done]. intros Hr.
    by destruct (init_outcome
         (f_beta (to_float (CHRF.beta self))
            (averaged_precision
               (pooled self (sys_lines sys) (ref_lines refs)
                  (length (sys_lines sys))) (CHRF.order self))
            (averaged_recall
               (pooled self (sys_lines sys) (ref_lines refs)
                  (length (sys_lines sys))) (CHRF.order self)))
         (CHRF.beta self) (CHRF.order self))
      as [(b & _ & Hi)|(q & _ & Hi)]; rewrite Hi in Hr.
Qed.

Lemma corpus_walk_valid hyps refs cs :
  0 ≤ CHRF.order self →
  corpus_walk self (hyps :: refs) = Ok cs →
  valid_statistics (CHRF.order self) cs.
Proof.
  intros Hord Hcs.
  destruct (corpus_walk_cases hyps refs)
    as [[Hneq Hw]|[(Heq & _ & _ & Hw)|[(Heq & _ & _ & Hw)|(Heq & Hrefs & Hw)]]];
    rewrite Hw in Hcs; try done; injection Hcs as <-.
  - by apply zeros_valid.
  - apply pooled_valid; [done..|]. by apply equal_lengths_all.
Qed.
End Outcomes.

(** * The claims *)

(** C1. For a hypothesis stream and one or more reference streams of the
    same length, [corpus_score] returns what [compute_chrf] returns when it
    is applied once to the element-wise sum, started from the all-zero
    vector, of the statistics vectors that [get_sentence_statistics] gives
    for the aligned tuples. This is not the mean of the sentence scores: on
    the corpus of "a" against "a" and "bbbb" against "cccc" the sentence
    scores are 1 and 0 and the corpus score is not their mean. *)
Theorem corpus_score_pools_statistics (self : CHRF.t) (hyps : list str)
    (refs : list (list str)) :
  refs ≠ [] → equal_lengths hyps refs →
  (∃ vs : list (list Z),
     Forall2 (λ p v, CHRF.get_sentence_statistics self p.1 p.2 = Ok v)
       (aligned hyps refs) vs ∧
     CHRF.corpus_score self (SysStream hyps) (RefStreams refs) =
     CHRF.compute_chrf
       (foldl vec_add (replicate (Z.to_nat (CHRF.order self * 3)) 0) vs)
       (CHRF.order self) (CHRF.beta self)) ∧
  (∃ s1 s2 sc,
     CHRF.sentence_score default_metric (s2l "a") (RefList [s2l "a"]) = Ok s1 ∧
     CHRF.sentence_score default_metric (s2l "bbbb") (RefList [s2l "cccc"])
       = Ok s2 ∧
     CHRF.corpus_score default_metric (SysStream [s2l "a"; s2l "bbbb"])
       (RefStreams [[s2l "a"; s2l "cccc"]]) = Ok sc ∧
     CHRFScore.score s1 = 1%Qc ∧ CHRFScore.score s2 = 0%Qc ∧
     CHRFScore.score sc ≠ ((CHRFScore.score s1 + CHRFScore.score s2) / 2)%Qc).
Proof.
  intros Hrefs Heq. split.
  - eexists. split; [by apply aligned_vectors|].
    rewrite corpus_score_walk. cbn [sys_lines ref_lines].
    by rewrite corpus_walk_equal by done.
  - do 3 eexists. split_and!; [vm_compute; reflexivity..| | |].
    + by apply Qc_is_canon.
    + by apply Qc_is_canon.
    + intros Hmean. apply (f_equal this) in Hmean. by vm_compute in Hmean.
Qed.

(** C3. [get_sentence_statistics] reads the first reference only: the
    result does not depend on the references that follow it. For each order
    [n] from 1 to [order] the triplet holds the total count of the
    hypothesis n-grams, the total count of the n-grams of the first
    reference, and the sum over the n-grams the two share of the smaller of
    the two counts. For "aa" against "aaa" the common count of order 1
    is 2. *)
Theorem sentence_statistics_first_reference (self : CHRF.t)
    (hypothesis reference : str) (rest : list str) :
  (∀ rest', CHRF.get_sentence_statistics self hypothesis (reference :: rest')
            = CHRF.get_sentence_statistics self hypothesis (reference :: rest)) ∧
  (∃ st, CHRF.get_sentence_statistics self hypothesis (reference :: rest)
         = Ok st ∧
     ∀ i : nat, Z.of_nat i < CHRF.order self →
       let hyp_ngrams :=
         extract_char_ngrams (CHRF.tokenizer self hypothesis) (i + 1) in
       let ref_ngrams :=
         extract_char_ngrams (CHRF.tokenizer self reference) (i + 1) in
       st !! (3 * i + 0)%nat = Some (Z.of_nat (total_count hyp_ngrams)) ∧
       st !! (3 * i + 1)%nat = Some (Z.of_nat (total_count ref_ngrams)) ∧
       st !! (3 * i + 2)%nat =
         Some (Z.of_nat (shared_min_count hyp_ngrams ref_ngrams))) ∧
  (∃ st, CHRF.get_sentence_statistics default_metric (s2l "aa") [s2l "aaa"]
         = Ok st ∧ st !! 2%nat = Some 2).
Proof.
  split_and!.
  - intros rest'. by rewrite !get_sentence_statistics_cons.
  - eexists. split; [apply get_sentence_statistics_cons|].
    intros i Hi hyp_ngrams ref_ngrams. unfold sentence_vector.
    rewrite !triplets_lookup by lia.
    rewrite !total_count_size, shared_min_count_size. done.
  - eexists. split; [vm_compute; reflexivity|done].
Qed.

(** C5, as the code has it. Under the default configuration, a string
    that keeps at least one character once its whitespace is removed
    scores 1 against itself: precision and recall are 1 at every effective
    order. *)
Theorem identity_score_tokenized (s : str) :
  TokenizerChrf s ≠ [] →
  (∃ st, CHRF.get_sentence_statistics default_metric s [s] = Ok st ∧
     ∀ i, i ∈ effective_orders st (CHRF.order default_metric) →
          precision_at st i = 1%Qc ∧ recall_at st i = 1%Qc) ∧
  CHRF.sentence_score default_metric s (RefList [s]) =
  Ok (CHRFScore.Build 1%Qc (PyInt 2) 6 "chrF2").
Proof.
  intros Htok. split.
  - eexists. split; [apply get_sentence_statistics_cons|].
    intros i Hi. by apply identity_ratios.
  - by apply (identity_score default_metric s).
Qed.

(** C5 as the claim states it fails: a single space is a non-empty string
    and scores 0 against itself, since the default tokenizer leaves nothing
    of it. *)
Lemma identity_fails_on_whitespace :
  s2l " " ≠ [] ∧
  ∃ sc, CHRF.sentence_score default_metric (s2l " ") (RefList [s2l " "])
        = Ok sc ∧
        CHRFScore.score sc = 0%Qc ∧ CHRFScore.score sc ≠ 1%Qc.
Proof.
  split; [done|]. eexists. split_and!; [vm_compute; reflexivity|done|].
  intros Hone. apply (f_equal this) in Hone. by vm_compute in Hone.
Qed.

(** C6. [corpus_score] raises [EOFError] exactly when some reference
    stream and the hypothesis stream differ in length. In that case the
    tuples before the end of the shortest stream are accumulated without an
    error, the tuple at that position misses a line and raises, and no
    score is returned. Three hypotheses against two references raise. *)
Theorem corpus_score_length_mismatch (self : CHRF.t) (sys : sys_arg)
    (refs : refs_arg) :
  let hyps := sys_lines sys in
  let streams := ref_lines refs in
  (CHRF.corpus_score self sys refs = Raise EOFError ↔
   ¬ equal_lengths hyps streams) ∧
  (¬ equal_lengths hyps streams →
   let k := shortest hyps streams in
   is_Ok (for_each (take k (zip_longest (hyps :: streams)))
            (CHRF.corpus_step self) (zeros self)) ∧
   ∃ tuple, zip_longest (hyps :: streams) !! k = Some tuple ∧
            None ∈ tuple ∧
            ∀ cs, CHRF.corpus_step self cs tuple = Raise EOFError) ∧
  CHRF.corpus_score default_metric
    (SysStream [s2l "a"; s2l "b"; s2l "c"])
    (RefStreams [[s2l "a"; s2l "b"]]) = Raise EOFError.
Proof.
  intros hyps streams. split_and!.
  - apply corpus_score_EOFError.
  - intros Hneq k.
    destruct (corpus_walk_first_missing self hyps streams Hneq)
      as [Hprefix Htuple].
    split; [by eexists|done].
  - by vm_compute.
Qed.

(** C7. With a non-negative order, a vector returned by
    [get_sentence_statistics] has [3 × order] entries, none negative, and
    in each triplet the common count is at most the hypothesis count and at
    most the reference count; a vector is returned whenever there is a
    reference. Element-wise addition keeps these properties, and so the
    vector that the corpus walk ends with has them. *)
Theorem statistics_vector_invariant (self : CHRF.t) (hypothesis : str)
    (references : list str) (sys : sys_arg) (refs : refs_arg) :
  0 ≤ CHRF.order self →
  (∀ st, CHRF.get_sentence_statistics self hypothesis references = Ok st →
         valid_statistics (CHRF.order self) st) ∧
  (references ≠ [] →
   is_Ok (CHRF.get_sentence_statistics self hypothesis references)) ∧
  (∀ a b, valid_statistics (CHRF.order self) a →
          valid_statistics (CHRF.order self) b →
          valid_statistics (CHRF.order self) (vec_add a b)) ∧
  (∀ cs, corpus_walk self (sys_lines sys :: ref_lines refs) = Ok cs →
         valid_statistics (CHRF.order self) cs).
Proof.
  intros Hord. split_and!.
  - intros st. destruct references as [|reference rest]; [done|].
    rewrite get_sentence_statistics_cons. intros [= <-].
    by apply sentence_vector_valid.
  - destruct references as [|reference rest]; [done|]. intros _.
    eexists. apply get_sentence_statistics_cons.
  - intros a b. apply vec_add_valid.
  - intros cs. by apply corpus_walk_valid.
Qed.

(** C8. When [references] is a single string, [sentence_score] raises
    [AssertionError], whatever the hypothesis and the configuration, also
    where the statistics or the score object could not be computed; no score
    is returned. When it is a list the assertion passes: the call is the
    statistics computation followed by the scorer, and never raises
    [AssertionError]. *)
Theorem sentence_score_rejects_string (self : CHRF.t) (hypothesis : str) :
  (∀ references : str,
     CHRF.sentence_score self hypothesis (RefStr references)
     = Raise AssertionError) ∧
  (∀ references : list str,
     CHRF.sentence_score self hypothesis (RefList references) =
       (stats ← CHRF.get_sentence_statistics self hypothesis references;
        CHRF.compute_chrf stats (CHRF.order self) (CHRF.beta self)) ∧
     CHRF.sentence_score self hypothesis (RefList references)
     ≠ Raise AssertionError).
Proof.
  split; [done|]. intros references. split; [done|].
  destruct references as [|reference rest]; [done|].
  rewrite sentence_score_cons.
  match goal with
  | |- CHRFScore.init ?sc ?b ?o ≠ _ =>
      destruct (init_outcome sc b o) as [(? & _ & ->)|(? & _ & ->)]
  end; done.
Qed.

(** ** The score report *)

Lemma string_length_app (s1 s2 : string) :
  String.length (s1 +:+ s2) = (String.length s1 + String.length s2)%nat.
Proof. induction s1 as [|c s1 IH]; simpl; [done|]. f_equal. exact IH. Qed.

Lemma fixed_digits_length (p : nat) (n : Z) :
  String.length (fixed_digits p n) = p.
Proof.
  revert n. induction p as [|p IH]; intros n; [done|].
  cbn [fixed_digits]. rewrite string_length_app, IH. cbn. lia.
Qed.

(** With a positive precision [p] the formatted number is a sign, the
    digits of an integer, a point and [p] digits. *)
Lemma format_f_shape (x : Qc) (p : Z) :
  0 < p →
  ∃ (sign : string) (whole : Z) (frac : string),
    format_f x p = Ok (sign +:+ pretty whole +:+ "." +:+ frac) ∧
    String.length frac = Z.to_nat p.
Proof.
  intros Hp. unfold format_f. rewrite decide_False by lia.
  do 3 eexists. split.
  - rewrite (decide_False (P := p = 0)) by lia. reflexivity.
  - apply fixed_digits_length.
Qed.

(** The report as the claim words it: the metric name followed by the
    order, [" = "], and the score with [W] digits after the point. *)
Definition claimed_report (s : CHRFScore.t) (W : Z) : result string :=
  digits ← format_f (CHRFScore.score s) W;
  Ok ("chrF" +:+ pretty (CHRFScore.order s) +:+ " = " +:+ digits).

(** C9, as the code has it. The report of a score object is the prefix
    "chrF" followed by beta (not by the order), then, when a signature is
    given, "+" and the signature, then " = " and the score in fixed-point
    notation with [W + 1] digits after the point; with [score_only] it is
    that number alone. *)
Theorem score_report_format (score : Qc) (b order W : Z)
    (signature : string) :
  0 ≤ W →
  ∃ s digits,
    CHRFScore.init score (PyInt b) order = Ok s ∧
    format_f score (W + 1) = Ok digits ∧
    (∃ (sign : string) (whole : Z) (frac : string),
       digits = sign +:+ pretty whole +:+ "." +:+ frac ∧
       String.length frac = Z.to_nat (W + 1)) ∧
    CHRFScore.format s W true signature = Ok digits ∧
    CHRFScore.format s W false "" =
      Ok (("chrF" +:+ pretty b) +:+ " = " +:+ digits) ∧
    (signature ≠ "" →
     CHRFScore.format s W false signature =
       Ok ((("chrF" +:+ pretty b) +:+ "+" +:+ signature) +:+ " = " +:+ digits)).
Proof.
  intros HW.
  destruct (format_f_shape score (W + 1)) as (sign & whole & frac & Hf & Hlen);
    [lia|].
  do 2 eexists. split_and!.
  - reflexivity.
  - exact Hf.
  - by exists sign, whole, frac.
  - unfold CHRFScore.format. cbn [CHRFScore.score]. exact Hf.
  - unfold CHRFScore.format. cbn [CHRFScore.score CHRFScore.prefix].
    by rewrite Hf.
  - intros Hsig. unfold CHRFScore.format.
    cbn [CHRFScore.score CHRFScore.prefix].
    by rewrite Hf, decide_False by done.
Qed.

(** C9 as the claim states it fails: for the score 1 with beta 2 and order
    6 and the width 2, the report is "chrF2 = 1.000" and not
    "chrF6 = 1.00", and the bare score is "1.000" and not "1.00". *)
Lemma report_is_not_order_and_width :
  ∃ s, CHRFScore.init 1%Qc (PyInt 2) 6 = Ok s ∧
       CHRFScore.format s 2 false "" = Ok "chrF2 = 1.000" ∧
       claimed_report s 2 = Ok "chrF6 = 1.00" ∧
       CHRFScore.format s 2 false "" ≠ claimed_report s 2 ∧
       CHRFScore.format s 2 true "" = Ok "1.000" ∧
       format_f (CHRFScore.score s) 2 = Ok "1.00".
Proof. eexists. split_and!; [reflexivity|by vm_compute..]. Qed.

(** * The theorems at concrete inputs *)

Lemma corpus_score_pools_statistics_witness :
  [[s2l "a"; s2l "cccc"]] ≠ [] ∧
  equal_lengths [s2l "a"; s2l "bbbb"] [[s2l "a"; s2l "cccc"]] ∧
  ∃ vs : list (list Z),
    Forall2 (λ p v, CHRF.get_sentence_statistics default_metric p.1 p.2 = Ok v)
      (aligned [s2l "a"; s2l "bbbb"] [[s2l "a"; s2l "cccc"]]) vs ∧
    CHRF.corpus_score default_metric (SysStream [s2l "a"; s2l "bbbb"])
      (RefStreams [[s2l "a"; s2l "cccc"]]) =
    CHRF.compute_chrf
      (foldl vec_add (replicate (Z.to_nat (CHRF.order default_metric * 3)) 0) vs)
      (CHRF.order default_metric) (CHRF.beta default_metric).
Proof.
  assert ([[s2l "a"; s2l "cccc"]] ≠ []) as Hrefs by discriminate.
  assert (equal_lengths [s2l "a"; s2l "bbbb"] [[s2l "a"; s2l "cccc"]])
    as Heq by (repeat constructor).
  split_and!; [exact Hrefs|exact Heq|].
  exact (proj1 (corpus_score_pools_statistics default_metric
                  [s2l "a"; s2l "bbbb"] [[s2l "a"; s2l "cccc"]] Hrefs Heq)).
Defined.


Lemma ngram_extractor_contract_witness :
  (1 ≤ 2)%nat ∧
  sum_values (extract_char_ngrams (s2l "abcab") 2) =
    Z.max 0 (len (s2l "abcab") - Z.of_nat 2 + 1) ∧
  multiplicity (s2l "ab") (extract_char_ngrams (s2l "abcab") 2) =
    occurrences (s2l "ab") (s2l "abcab").
Proof.
  assert (1 ≤ 2)%nat as Hn by lia.
  destruct (ngram_extractor_contract (s2l "abcab") 2 Hn)
    as (_ & Htotal & _ & Hmult & _).
  split_and!; [exact Hn|exact Htotal|exact (Hmult (s2l "ab"))].
Defined.

Lemma identity_score_tokenized_witness :
  TokenizerChrf (s2l "a b") ≠ [] ∧
  CHRF.sentence_score default_metric (s2l "a b") (RefList [s2l "a b"]) =
  Ok (CHRFScore.Build 1%Qc (PyInt 2) 6 "chrF2").
Proof.
  assert (TokenizerChrf (s2l "a b") ≠ []) as Htok by (vm_compute; discriminate).
  split; [exact Htok|].
  exact (proj2 (identity_score_tokenized (s2l "a b") Htok)).
Defined.

Lemma statistics_vector_invariant_witness :
  0 ≤ CHRF.order default_metric ∧
  ∀ st, CHRF.get_sentence_statistics default_metric (s2l "aa") [s2l "aaa"]
        = Ok st →
        valid_statistics (CHRF.order default_metric) st.
Proof.
  assert (0 ≤ CHRF.order default_metric) as Hord by (vm_compute; discriminate).
  split; [exact Hord|].
  exact (proj1 (statistics_vector_invariant default_metric (s2l "aa")
                  [s2l "aaa"] (SysStream []) (RefStreams []) Hord)).
Defined.

Lemma score_report_format_witness :
  0 ≤ 2 ∧
  ∃ s digits,
    CHRFScore.init (Q2Qc (1 # 20)) (PyInt 2) 6 = Ok s ∧
    format_f (Q2Qc (1 # 20)) (2 + 1) = Ok digits ∧
    CHRFScore.format s 2 false "" =
      Ok (("chrF" +:+ pretty 2) +:+ " = " +:+ digits).
Proof.
  assert (0 ≤ 2) as HW by lia.
  split; [exact HW|].
  destruct (score_report_format (Q2Qc (1 # 20)) 2 6 2 "" HW)
    as (s & digits & Hinit & Hf & _ & _ & Hreport & _).
  exists s, digits. split_and!; [exact Hinit|exact Hf|exact Hreport].
Defined.

(** * Further properties of the code *)

(** ** extract_word_ngrams over a range of orders *)

Section WordNgrams.
Context {A : Type} `{Countable A}.
Implicit Types (tokens g : list A) (n : nat) (orders : list nat).

(** The n-grams of the given orders, one order after the other, as the two
    nested loops of [extract_word_ngrams] append them. *)
Definition ngrams_of_orders tokens orders : list (list A) :=
  n ← orders; ngram_list tokens n.

Lemma extract_word_ngrams_orders tokens (min_order : nat) (max_order : Z) :
  extract_word_ngrams tokens min_order max_order =
  Counter (ngrams_of_orders tokens (range_from min_order (max_order + 1))).
Proof. done. Qed.

Lemma ngrams_of_orders_multiplicity tokens orders g :
  NoDup orders → Forall (λ n, 1 ≤ n)%nat orders →
  multiplicity g (Counter (ngrams_of_orders tokens orders)) =
  if decide (length g ∈ orders) then occurrences g tokens else 0%nat.
Proof.
  unfold Counter, ngrams_of_orders.
  induction 1 as [|n orders Hn Hnd IH]; intros Hpos.
  - rewrite decide_False by apply not_elem_of_nil. done.
  - apply Forall_cons in Hpos as [Hn1 Hpos].
    cbn [mbind list_bind]. rewrite list_to_set_disj_app,
      multiplicity_disj_union, (IH Hpos).
    fold (Counter (ngram_list tokens n)).
    fold (extract_char_ngrams tokens n).
    destruct (decide (length g = n)) as [Hg|Hg].
    + rewrite extract_char_ngrams_multiplicity by done. subst n.
      rewrite (decide_False (P := length g ∈ orders)) by done.
      rewrite (decide_True (P := length g ∈ length g :: orders))
        by (by left). lia.
    + rewrite extract_char_ngrams_other_length by done.
      destruct (decide (length g ∈ orders)) as [Hin|Hnin].
      * rewrite decide_True by (by right). done.
      * rewrite decide_False; [done|].
        by intros [?|?]%elem_of_cons.
Qed.

Lemma ngrams_of_orders_length tokens orders :
  Z.of_nat (length (ngrams_of_orders tokens orders)) =
  foldr Z.add 0 ((λ n, Z.max 0 (len tokens - Z.of_nat n + 1)) <$> orders).
Proof.
  unfold ngrams_of_orders. induction orders as [|n orders IH]; [done|].
  cbn [mbind list_bind fmap list_fmap foldr].
  rewrite length_app, Nat2Z.inj_add, IH, ngram_list_length. lia.
Qed.
End WordNgrams.

(** X1. [extract_word_ngrams] with [1 ≤ min_order]: its total count is
    the sum over the orders [min_order .. max_order] of
    [max(0, L - n + 1)]; an n-gram whose length lies in that range is
    counted as many times as it occurs in the token list, and nothing else
    is counted; when [max_order < min_order] the result is empty. *)
Theorem extract_word_ngrams_range {A : Type} `{Countable A}
    (tokens : list A) (min_order : nat) (max_order : Z) :
  (1 ≤ min_order)%nat →
  sum_values (extract_word_ngrams tokens min_order max_order) =
    foldr Z.add 0
      ((λ n, Z.max 0 (len tokens - Z.of_nat n + 1)) <$>
         range_from min_order (max_order + 1)) ∧
  (∀ g, multiplicity g (extract_word_ngrams tokens min_order max_order) =
        if decide (Z.of_nat min_order ≤ len g ≤ max_order)
        then occurrences g tokens else 0%nat) ∧
  (max_order < Z.of_nat min_order →
   extract_word_ngrams tokens min_order max_order = ∅).
Proof.
  intros Hmin. rewrite extract_word_ngrams_orders. split_and!.
  - unfold sum_values. rewrite Counter_size. apply ngrams_of_orders_length.
  - intros g. rewrite ngrams_of_orders_multiplicity.
    + unfold range_from, len.
      destruct (decide (length g ∈ seq min_order
                          (Z.to_nat (max_order + 1 - Z.of_nat min_order))))
        as [Hin|Hnin].
      * apply elem_of_seq in Hin. rewrite decide_True by lia. done.
      * rewrite decide_False; [done|]. intros Hr. apply Hnin, elem_of_seq. lia.
    + apply NoDup_seq.
    + apply Forall_forall. intros n Hn%elem_of_seq. lia.
  - intros Hlt. unfold range_from.
    replace (Z.to_nat (max_order + 1 - Z.of_nat min_order)) with 0%nat by lia.
    done.
Qed.

Lemma extract_word_ngrams_range_witness :
  (1 ≤ 1)%nat ∧
  sum_values (extract_word_ngrams [1; 2; 1; 2]%nat 1 2) = 7 ∧
  multiplicity [1; 2]%nat (extract_word_ngrams [1; 2; 1; 2]%nat 1 2) = 2%nat.
Proof.
  assert (1 ≤ 1)%nat as Hmin by lia.
  destruct (extract_word_ngrams_range [1; 2; 1; 2]%nat 1 2 Hmin)
    as (Htotal & Hmult & _).
  split_and!; [exact Hmin|by rewrite Htotal|by rewrite Hmult].
Defined.

(** ** Counts bounded by the counts they are taken from *)

(** In every effective order the common count is at most the hypothesis
    count and at most the reference count. *)
Definition bounded_statistics (st : list Z) (order : Z) : Prop :=
  ∀ i, i ∈ effective_orders st order →
       entry st (3 * i + 2) ≤ entry st (3 * i + 0) ∧
       entry st (3 * i + 2) ≤ entry st (3 * i + 1).

Lemma ratio_le_one (a c : Z) :
  0 < c → a ≤ c → (Qc_of_Z a / Qc_of_Z c ≤ 1)%Qc.
Proof.
  intros Hc Hac. rewrite <- (Qcmult_inv_r (Qc_of_Z c))
    by by apply Qc_of_Z_pos_ne.
  apply Qcmult_le_mono_nonneg_r.
  - by apply Qclt_le_weak, Qcinv_pos, Qc_of_Z_pos.
  - by apply (proj1 (Z2Qc_inj_le a c)).
Qed.

Lemma valid_bounded st (order : Z) :
  valid_statistics order st → bounded_statistics st order.
Proof.
  intros (Hlen & _ & Htri) i [_ Hi%elem_of_seq]%list_elem_of_filter.
  unfold len in Hlen. unfold entry.
  destruct (lookup_lt_is_Some_2 st (3 * i + 0)) as [h Hh]; [lia|].
  destruct (lookup_lt_is_Some_2 st (3 * i + 1)) as [r Hr]; [lia|].
  destruct (lookup_lt_is_Some_2 st (3 * i + 2)) as [c Hc]; [lia|].
  rewrite Hh, Hr, Hc. cbn [default]. unfold id.
  rewrite Nat.add_0_r in Hh. specialize (Htri i h r c Hh Hr Hc). lia.
Qed.

Lemma negative_order_bounded st (order : Z) :
  order < 0 → bounded_statistics st order.
Proof.
  intros Hneg i [_ Hi%elem_of_seq]%list_elem_of_filter. lia.
Qed.

(** ** Averages that agree on the orders they read *)

Lemma filter_ext_in {B} (P Q : B → Prop) `{!∀ x, Decision (P x)}
    `{!∀ x, Decision (Q x)} (l : list B) :
  (∀ x, x ∈ l → (P x ↔ Q x)) → filter P l = filter Q l.
Proof.
  induction l as [|x l IH]; intros HPQ; [done|].
  rewrite !filter_cons, IH by (intros y Hy; apply HPQ; by right).
  destruct (HPQ x ltac:(by left)) as [HP HQ].
  destruct (decide (P x)), (decide (Q x)); tauto.
Qed.

Lemma average_ext (f g : nat → Qc) (l : list nat) :
  (∀ i, i ∈ l → f i = g i) → average f l = average g l.
Proof.
  intros Hfg. unfold average. case_decide; [done|]. f_equal.
  unfold sum_Qc. f_equal. apply list_eq. intros k.
  rewrite !list_lookup_fmap. destruct (l !! k) as [i|] eqn:Hk; [|done].
  cbn. f_equal. apply Hfg. by eapply list_elem_of_lookup_2.
Qed.

(** Two vectors whose triplets agree below [order], up to an exchange of
    the hypothesis and reference counts, have the same averages, up to the
    same exchange. *)
Lemma averages_exchange (st st' : list Z) (order : Z) :
  (∀ i : nat, (i < Z.to_nat order)%nat →
     entry st' (3 * i + 0) = entry st (3 * i + 1) ∧
     entry st' (3 * i + 1) = entry st (3 * i + 0) ∧
     entry st' (3 * i + 2) = entry st (3 * i + 2)) →
  averaged_precision st' order = averaged_recall st order ∧
  averaged_recall st' order = averaged_precision st order.
Proof.
  intros Hex.
  assert (effective_orders st' order = effective_orders st order) as Heff.
  { apply filter_ext_in. intros i Hi%elem_of_seq.
    destruct (Hex i) as (Hh & Hr & _); [lia|].
    unfold effective. rewrite Hh, Hr. tauto. }
  unfold averaged_precision, averaged_recall. rewrite Heff.
  split; apply average_ext;
    intros i [_ Hi%elem_of_seq]%list_elem_of_filter;
    destruct (Hex i) as (Hh & Hr & Hc); [lia| |lia|];
    unfold precision_at, recall_at; by rewrite ?Hh, ?Hr, ?Hc.
Qed.

Lemma averages_agree (st st' : list Z) (order : Z) :
  (∀ i j : nat, (i < Z.to_nat order)%nat → (j < 3)%nat →
     entry st' (3 * i + j) = entry st (3 * i + j)) →
  averaged_precision st' order = averaged_precision st order ∧
  averaged_recall st' order = averaged_recall st order.
Proof.
  intros Hag.
  assert (effective_orders st' order = effective_orders st order) as Heff.
  { apply filter_ext_in. intros i Hi%elem_of_seq.
    unfold effective. rewrite !Hag by lia. done. }
  unfold averaged_precision, averaged_recall. rewrite Heff.
  split; apply average_ext;
    intros i [_ Hi%elem_of_seq]%list_elem_of_filter;
    unfold precision_at, recall_at; by rewrite !Hag by lia.
Qed.

(** ** Hypothesis and reference exchanged *)

Lemma triplet_exchange (hypothesis reference : str) (n : nat) (j : nat) :
  (j < 3)%nat →
  triplet reference hypothesis n !! j =
  triplet hypothesis reference n
    !! (match j with 0 => 1 | 1 => 0 | _ => j end)%nat.
Proof.
  intros Hj. unfold triplet, Counter_and.
  rewrite (comm (∩) (extract_char_ngrams reference n)).
  by destruct j as [|[|[|j]]]; [..|lia].
Qed.

Lemma f_beta_one_symmetric (p r : Qc) : f_beta 1 p r = f_beta 1 r p.
Proof.
  unfold f_beta. rewrite (Qcplus_comm r p).
  case_decide; [done|].
  rewrite !Qcmult_1_l, (Qcplus_comm r p).
  by rewrite <- !Qcmult_assoc, (Qcmult_comm r p).
Qed.

(** X3. Scoring a reference against a hypothesis instead of the hypothesis
    against the reference exchanges the averaged precision and the
    averaged recall; with beta = 1 the two calls return the same score. *)
Theorem exchange_precision_recall (self : CHRF.t)
    (hypothesis reference : str) :
  averaged_precision (sentence_vector self reference hypothesis)
    (CHRF.order self) =
  averaged_recall (sentence_vector self hypothesis reference)
    (CHRF.order self) ∧
  averaged_recall (sentence_vector self reference hypothesis)
    (CHRF.order self) =
  averaged_precision (sentence_vector self hypothesis reference)
    (CHRF.order self) ∧
  (CHRF.beta self = PyInt 1 →
   CHRF.sentence_score self reference (RefList [hypothesis]) =
   CHRF.sentence_score self hypothesis (RefList [reference])).
Proof.
  destruct (averages_exchange
              (sentence_vector self hypothesis reference)
              (sentence_vector self reference hypothesis)
              (CHRF.order self)) as [Hp Hr].
  { intros i Hi. rewrite !entry_sentence_vector by (done || lia).
    by rewrite !(triplet_exchange (CHRF.tokenizer self hypothesis)
                   (CHRF.tokenizer self reference)) by lia. }
  split_and!; [done..|].
  intros Hbeta. rewrite !sentence_score_cons, Hbeta, Hp, Hr.
  cbn [to_float]. rewrite Z2Qc_inj_1. by rewrite f_beta_one_symmetric.
Qed.

(** ** No character in common *)

Section Disjoint.
Context {A : Type} `{Countable A}.
Implicit Types (hyp ref g : list A) (n : nat).

Lemma extract_char_ngrams_disjoint hyp ref n :
  (1 ≤ n)%nat → (∀ c, c ∈ hyp → c ∉ ref) →
  Counter_and (extract_char_ngrams hyp n) (extract_char_ngrams ref n) = ∅.
Proof.
  intros Hn Hdis. unfold Counter_and.
  destruct (gmultiset_choose_or_empty
              (extract_char_ngrams hyp n ∩ extract_char_ngrams ref n))
    as [[g Hg]|Hempty]; [|done].
  apply gmultiset_elem_of_intersection in Hg as [Hg1 Hg2].
  apply extract_char_ngrams_elem in Hg1 as (Hlen & pre1 & post1 & ->).
  apply extract_char_ngrams_elem in Hg2 as (_ & pre2 & post2 & ->).
  destruct g as [|c g]; [cbn in Hlen; lia|].
  destruct (Hdis c); rewrite !elem_of_app; right; left; by left.
Qed.
End Disjoint.

Lemma average_all_zero (f : nat → Qc) (l : list nat) :
  (∀ i, i ∈ l → f i = 0%Qc) → average f l = 0%Qc.
Proof.
  intros Hz. unfold average. case_decide; [done|].
  rewrite sum_Qc_all_zero; [apply Qcmult_0_l|].
  apply Forall_fmap, Forall_forall. intros i Hi. by apply Hz.
Qed.

Lemma Qc_zero_div (x : Qc) : (Qc_of_Z 0 / x = 0)%Qc.
Proof. rewrite Z2Qc_inj_0. apply Qcmult_0_l. Qed.

(** X4. When the tokenized hypothesis and the tokenized first reference
    have no character in common, every common count is 0 and, for an
    integer beta, the score is 0. *)
Theorem disjoint_characters_score_zero (self : CHRF.t)
    (hypothesis reference : str) (rest : list str) (b : Z) :
  (∀ c, c ∈ CHRF.tokenizer self hypothesis →
        c ∉ CHRF.tokenizer self reference) →
  CHRF.beta self = PyInt b →
  (∀ i : nat, (i < Z.to_nat (CHRF.order self))%nat →
     entry (sentence_vector self hypothesis reference) (3 * i + 2) = 0) ∧
  CHRF.sentence_score self hypothesis (RefList (reference :: rest)) =
  Ok (CHRFScore.Build 0%Qc (PyInt b) (CHRF.order self) ("chrF" +:+ pretty b)).
Proof.
  intros Hdis Hbeta.
  assert (∀ i : nat, (i < Z.to_nat (CHRF.order self))%nat →
            entry (sentence_vector self hypothesis reference) (3 * i + 2) = 0)
    as Hcommon.
  { intros i Hi. rewrite entry_sentence_vector by (done || lia).
    unfold triplet. cbn [lookup list_lookup default].
    rewrite extract_char_ngrams_disjoint by (lia || done). done. }
  split; [done|].
  rewrite sentence_score_cons, Hbeta. cbn [CHRFScore.init format_d mbind
                                            result_bind].
  do 2 f_equal. unfold f_beta, averaged_precision, averaged_recall.
  rewrite !average_all_zero.
  - by rewrite decide_True.
  - intros i [_ Hi%elem_of_seq]%list_elem_of_filter.
    unfold recall_at. rewrite Hcommon by lia. apply Qc_zero_div.
  - intros i [_ Hi%elem_of_seq]%list_elem_of_filter.
    unfold precision_at. rewrite Hcommon by lia. apply Qc_zero_div.
Qed.

Lemma disjoint_characters_score_zero_witness :
  (∀ c, c ∈ CHRF.tokenizer default_metric (s2l "ab") →
        c ∉ CHRF.tokenizer default_metric (s2l "cd")) ∧
  CHRF.beta default_metric = PyInt 2 ∧
  CHRF.sentence_score default_metric (s2l "ab") (RefList [s2l "cd"]) =
  Ok (CHRFScore.Build 0%Qc (PyInt 2) 6 "chrF2").
Proof.
  assert (∀ c, c ∈ CHRF.tokenizer default_metric (s2l "ab") →
               c ∉ CHRF.tokenizer default_metric (s2l "cd")) as Hdis.
  { intros c Hc Hc'. vm_compute in Hc, Hc'.
    apply elem_of_cons in Hc as [->|Hc];
      [|apply elem_of_cons in Hc as [->|Hc]; [|by apply not_elem_of_nil in Hc]];
      (apply elem_of_cons in Hc' as [?|Hc'];
        [discriminate|apply elem_of_cons in Hc' as [?|Hc'];
           [discriminate|by apply not_elem_of_nil in Hc']]). }
  split_and!; [exact Hdis|reflexivity|].
  exact (proj2 (disjoint_characters_score_zero default_metric (s2l "ab")
                  (s2l "cd") [] 2 Hdis eq_refl)).
Defined.

(** ** Corpora of one sentence, ignored reference streams, empty inputs *)

Lemma vec_add_zeros (v : list Z) (n : nat) :
  length v = n → vec_add (replicate n 0) v = v.
Proof.
  intros <-. unfold vec_add. induction v as [|x v IH]; [done|].
  cbn [length replicate zip_with]. by rewrite IH.
Qed.

Lemma compute_chrf_sentence (self : CHRF.t) (hypothesis reference : str)
    (rest : list str) :
  CHRF.sentence_score self hypothesis (RefList (reference :: rest)) =
  CHRF.compute_chrf (sentence_vector self hypothesis reference)
    (CHRF.order self) (CHRF.beta self).
Proof.
  unfold CHRF.sentence_score. by rewrite get_sentence_statistics_cons.
Qed.

(** X5. A corpus of one hypothesis and one reference scores as the
    sentence does, whether the two are given as one-element streams or as
    bare strings. *)
Theorem corpus_of_one_sentence (self : CHRF.t) (hypothesis reference : str) :
  CHRF.corpus_score self (SysStream [hypothesis]) (RefStreams [[reference]]) =
    CHRF.sentence_score self hypothesis (RefList [reference]) ∧
  CHRF.corpus_score self (SysStr hypothesis) (RefsStr reference) =
    CHRF.sentence_score self hypothesis (RefList [reference]) ∧
  CHRF.corpus_score self (SysStr hypothesis) (RefStreams [[reference]]) =
    CHRF.sentence_score self hypothesis (RefList [reference]).
Proof.
  assert (CHRF.corpus_score self (SysStream [hypothesis])
            (RefStreams [[reference]]) =
          CHRF.sentence_score self hypothesis (RefList [reference])) as Hone.
  { rewrite corpus_score_walk. cbn [sys_lines ref_lines].
    rewrite corpus_walk_equal by (done || by repeat constructor).
    cbn [mbind result_bind]. rewrite compute_chrf_sentence.
    f_equal. unfold pooled, column.
    cbn [length seq fmap list_fmap omap list_omap lookup list_lookup foldl
         tuple_vector].
    apply vec_add_zeros. by rewrite sentence_vector_length. }
  by split_and!.
Qed.

(** X6. With reference streams as long as the hypothesis stream, only the
    first reference stream is read: the streams after it do not change
    what [corpus_score] returns. *)
Theorem corpus_score_first_stream (self : CHRF.t) (hyps reference : list str)
    (others : list (list str)) :
  equal_lengths hyps (reference :: others) →
  CHRF.corpus_score self (SysStream hyps) (RefStreams (reference :: others)) =
  CHRF.corpus_score self (SysStream hyps) (RefStreams [reference]).
Proof.
  intros Heq.
  assert (equal_lengths hyps [reference]) as Heq1.
  { apply Forall_cons in Heq as [Hr _]. by repeat constructor. }
  rewrite !corpus_score_walk. cbn [sys_lines ref_lines].
  rewrite !corpus_walk_equal by done. cbn [mbind result_bind].
  f_equal. unfold pooled. f_equal.
  rewrite <- !list_fmap_compose. apply list_fmap_ext.
  intros k i Hi. apply lookup_seq in Hi as [Hi Hk].
  rewrite Nat.add_0_l in Hi. subst i. unfold compose.
  destruct (complete_columns hyps (reference :: others) (length hyps) k)
    as (h & r & rest & Hh & Hc & ->);
    [done|by apply equal_lengths_all|lia|].
  destruct (complete_columns hyps [reference] (length hyps) k)
    as (h' & r' & rest' & Hh' & Hc' & ->);
    [done|by apply equal_lengths_all|lia|].
  rewrite !tuple_vector_cons. unfold column in Hc, Hc'.
  cbn [omap list_omap] in Hc, Hc'.
  destruct (reference !! k); [|done]. simplify_eq. congruence.
Qed.

Lemma corpus_score_first_stream_witness :
  equal_lengths [s2l "ab"; s2l "c"] [[s2l "ab"; s2l "d"]; [s2l "x"; s2l "c"]] ∧
  CHRF.corpus_score default_metric (SysStream [s2l "ab"; s2l "c"])
    (RefStreams [[s2l "ab"; s2l "d"]; [s2l "x"; s2l "c"]]) =
  CHRF.corpus_score default_metric (SysStream [s2l "ab"; s2l "c"])
    (RefStreams [[s2l "ab"; s2l "d"]]).
Proof.
  assert (equal_lengths [s2l "ab"; s2l "c"]
            [[s2l "ab"; s2l "d"]; [s2l "x"; s2l "c"]]) as Heq
    by (repeat constructor).
  split; [exact Heq|].
  exact (corpus_score_first_stream default_metric [s2l "ab"; s2l "c"]
           [s2l "ab"; s2l "d"] [[s2l "x"; s2l "c"]] Heq).
Defined.

Lemma entry_zeros (self : CHRF.t) (i : nat) : entry (zeros self) i = 0.
Proof.
  unfold entry, zeros.
  destruct (replicate _ 0 !! i) as [x|] eqn:Hx; [|done].
  by apply lookup_replicate in Hx as [-> _].
Qed.

Lemma f_beta_zeros (self : CHRF.t) (b : Qc) :
  f_beta b (averaged_precision (zeros self) (CHRF.order self))
           (averaged_recall (zeros self) (CHRF.order self)) = 0%Qc.
Proof.
  assert (effective_orders (zeros self) (CHRF.order self) = []) as Heff.
  { unfold effective_orders.
    induction (range (CHRF.order self)) as [|i l IH]; [done|].
    rewrite filter_cons, decide_False; [done|].
    unfold effective. rewrite !entry_zeros. lia. }
  unfold f_beta, averaged_precision, averaged_recall, average.
  rewrite Heff. by rewrite !decide_True by done.
Qed.

(** X7. Without a reference there is nothing to index: [sentence_score]
    on an empty list of references, and [corpus_score] on hypotheses with
    no reference stream, raise [IndexError]. A corpus with no line at all
    (no hypothesis, and reference streams that are all empty) raises
    nothing and is scored on the zero vector: score 0 for an integer
    beta. *)
Theorem scoring_without_input (self : CHRF.t) (hypothesis : str)
    (hyps : list str) (refs : list (list str)) :
  CHRF.sentence_score self hypothesis (RefList []) = Raise IndexError ∧
  CHRF.corpus_score self (SysStream (hypothesis :: hyps)) (RefStreams [])
    = Raise IndexError ∧
  CHRF.corpus_score self (SysStr hypothesis) (RefStreams [])
    = Raise IndexError ∧
  (equal_lengths [] refs →
   CHRF.corpus_score self (SysStream []) (RefStreams refs) =
   CHRFScore.init 0%Qc (CHRF.beta self) (CHRF.order self)) ∧
  (equal_lengths [] refs → ∀ b, CHRF.beta self = PyInt b →
   CHRF.corpus_score self (SysStream []) (RefStreams refs) =
   Ok (CHRFScore.Build 0%Qc (PyInt b) (CHRF.order self)
         ("chrF" +:+ pretty b))).
Proof.
  assert (equal_lengths [] refs →
          CHRF.corpus_score self (SysStream []) (RefStreams refs) =
          CHRFScore.init 0%Qc (CHRF.beta self) (CHRF.order self)) as Hempty.
  { intros Heq. rewrite corpus_score_walk. cbn [sys_lines ref_lines].
    assert (corpus_walk self ([] :: refs) = Ok (zeros self)) as ->.
    { destruct refs as [|fh refs]; [done|].
      by rewrite corpus_walk_equal by done. }
    cbn [mbind result_bind].
    rewrite compute_chrf_scorable by apply zeros_scorable.
    by rewrite f_beta_zeros. }
  split_and!.
  - done.
  - rewrite corpus_score_walk. cbn [sys_lines ref_lines].
    by rewrite corpus_walk_no_reference.
  - rewrite corpus_score_walk. cbn [sys_lines ref_lines].
    by rewrite corpus_walk_no_reference.
  - exact Hempty.
  - intros Heq b Hb. by rewrite Hempty, Hb.
Qed.

(** ** Reading past the end of a vector *)

Lemma getitem_out_of_range {B} (l : list B) (i : nat) :
  (length l ≤ i)%nat → getitem l i = Raise IndexError.
Proof.
  intros Hi. unfold getitem. by rewrite (proj2 (lookup_ge_None l i) Hi).
Qed.

Lemma getitem_raises {B} (l : list B) (i : nat) (e : exn) :
  getitem l i = Raise e → e = IndexError.
Proof. unfold getitem. destruct (l !! i); [done|]. by intros [= <-]. Qed.

(** ** Orders beyond the length of the texts *)

Lemma filter_all {B} (P : B → Prop) `{!∀ x, Decision (P x)} (l : list B) :
  Forall P l → filter P l = l.
Proof.
  induction 1 as [|x l Hx _ IH]; [done|].
  by rewrite filter_cons, decide_True, IH.
Qed.

Lemma filter_none {B} (P : B → Prop) `{!∀ x, Decision (P x)} (l : list B) :
  Forall (λ x, ¬ P x) l → filter P l = [].
Proof.
  induction 1 as [|x l Hx _ IH]; [done|].
  by rewrite filter_cons, decide_False, IH.
Qed.

Section OrderBeyondLength.
Context (self : CHRF.t) (hypothesis reference : str).

(** The number of orders at which both tokenized texts have an n-gram. *)
Definition common_orders : nat :=
  (length (CHRF.tokenizer self hypothesis) `min`
   length (CHRF.tokenizer self reference))%nat.

Lemma sentence_vector_counts (i : nat) :
  (i < Z.to_nat (CHRF.order self))%nat →
  entry (sentence_vector self hypothesis reference) (3 * i + 0) =
    Z.max 0 (len (CHRF.tokenizer self hypothesis) - Z.of_nat i) ∧
  entry (sentence_vector self hypothesis reference) (3 * i + 1) =
    Z.max 0 (len (CHRF.tokenizer self reference) - Z.of_nat i).
Proof.
  intros Hi. rewrite !entry_sentence_vector by (done || lia).
  unfold triplet. cbn [lookup list_lookup default].
  rewrite !extract_char_ngrams_total. unfold id. lia.
Qed.

Lemma effective_orders_lengths :
  Z.of_nat common_orders ≤ CHRF.order self →
  effective_orders (sentence_vector self hypothesis reference)
    (CHRF.order self) = seq 0 common_orders.
Proof.
  intros Hord. unfold effective_orders, range.
  replace (Z.to_nat (CHRF.order self))
    with (common_orders + (Z.to_nat (CHRF.order self) - common_orders))%nat
    by lia.
  rewrite seq_app, filter_app, filter_all, filter_none; [by rewrite app_nil_r|..].
  - apply Forall_forall. intros i Hi%elem_of_seq.
    destruct (sentence_vector_counts i) as [Hh Hr]; [lia|].
    unfold effective. rewrite Hh, Hr. unfold common_orders, len in *. lia.
  - apply Forall_forall. intros i Hi%elem_of_seq.
    destruct (sentence_vector_counts i) as [Hh Hr]; [lia|].
    unfold effective. rewrite Hh, Hr. unfold common_orders, len in *. lia.
Qed.
End OrderBeyondLength.

(** X10. Orders at which the tokenized hypothesis or the tokenized
    reference has no n-gram are left out of the averages: the effective
    orders are the first [min(len(hypothesis), len(reference))] ones, and
    two metrics with the same tokenizer whose orders are both at least
    that number give the same averaged precision and recall, hence, for the
    same beta, the same score. *)
Theorem order_beyond_length (self self' : CHRF.t)
    (hypothesis reference : str) :
  CHRF.tokenizer self' = CHRF.tokenizer self →
  CHRF.beta self' = CHRF.beta self →
  Z.of_nat (common_orders self hypothesis reference) ≤ CHRF.order self →
  Z.of_nat (common_orders self hypothesis reference) ≤ CHRF.order self' →
  effective_orders (sentence_vector self hypothesis reference)
    (CHRF.order self) = seq 0 (common_orders self hypothesis reference) ∧
  averaged_precision (sentence_vector self' hypothesis reference)
    (CHRF.order self') =
  averaged_precision (sentence_vector self hypothesis reference)
    (CHRF.order self) ∧
  averaged_recall (sentence_vector self' hypothesis reference)
    (CHRF.order self') =
  averaged_recall (sentence_vector self hypothesis reference)
    (CHRF.order self) ∧
  (∀ s s',
     CHRF.sentence_score self hypothesis (RefList [reference]) = Ok s →
     CHRF.sentence_score self' hypothesis (RefList [reference]) = Ok s' →
     CHRFScore.score s' = CHRFScore.score s).
Proof.
  intros Htok Hbeta Hord Hord'.
  assert (common_orders self' hypothesis reference =
          common_orders self hypothesis reference) as Hco
    by (unfold common_orders; by rewrite Htok).
  pose proof (effective_orders_lengths self hypothesis reference Hord) as Heff.
  pose proof (effective_orders_lengths self' hypothesis reference) as Heff'.
  rewrite Hco in Heff'. specialize (Heff' Hord').
  assert (∀ i j : nat,
            (i < common_orders self hypothesis reference)%nat → (j < 3)%nat →
            entry (sentence_vector self' hypothesis reference) (3 * i + j) =
            entry (sentence_vector self hypothesis reference) (3 * i + j))
    as Hentries.
  { intros i j Hi Hj. rewrite !entry_sentence_vector by lia.
    by rewrite Htok. }
  assert (averaged_precision (sentence_vector self' hypothesis reference)
            (CHRF.order self') =
          averaged_precision (sentence_vector self hypothesis reference)
            (CHRF.order self) ∧
          averaged_recall (sentence_vector self' hypothesis reference)
            (CHRF.order self') =
          averaged_recall (sentence_vector self hypothesis reference)
            (CHRF.order self)) as [Hp Hr].
  { unfold averaged_precision, averaged_recall. rewrite Heff, Heff'.
    split; apply average_ext; intros i Hi%elem_of_seq;
      unfold precision_at, recall_at; by rewrite !Hentries by lia. }
  split_and!; [done..|].
  intros s s'. rewrite !sentence_score_cons, Hbeta, Hp, Hr.
  destruct (CHRF.beta self) as [b|q]; [|done].
  by intros [= <-] [= <-].
Qed.

Lemma order_beyond_length_witness :
  ∃ s s',
    CHRF.sentence_score (CHRF.init false 2 (PyInt 2) false 1) (s2l "ab")
      (RefList [s2l "abc"]) = Ok s ∧
    CHRF.sentence_score (CHRF.init false 6 (PyInt 2) false 1) (s2l "ab")
      (RefList [s2l "abc"]) = Ok s' ∧
    CHRFScore.score s' = CHRFScore.score s.
Proof.
  do 2 eexists. split_and!; [vm_compute; reflexivity..|].
  refine (proj2 (proj2 (proj2 (order_beyond_length
            (CHRF.init false 2 (PyInt 2) false 1)
            (CHRF.init false 6 (PyInt 2) false 1)
            (s2l "ab") (s2l "abc") eq_refl eq_refl _ _))) _ _ _ _);
    [vm_compute; discriminate|vm_compute; discriminate
    |vm_compute; reflexivity|vm_compute; reflexivity].
Defined.

(** X11. The hypothesis count and the reference count of an order depend
    on the lengths of the tokenized texts only: for the order [n = i + 1]
    they are [max(0, len(hypothesis) - n + 1)] and
    [max(0, len(reference) - n + 1)]. *)
Theorem statistics_counts_from_lengths (self : CHRF.t)
    (hypothesis reference : str) (rest : list str) :
  ∃ st, CHRF.get_sentence_statistics self hypothesis (reference :: rest)
        = Ok st ∧
    ∀ i : nat, Z.of_nat i < CHRF.order self →
      st !! (3 * i + 0)%nat =
        Some (Z.max 0 (len (CHRF.tokenizer self hypothesis)
                       - Z.of_nat (i + 1) + 1)) ∧
      st !! (3 * i + 1)%nat =
        Some (Z.max 0 (len (CHRF.tokenizer self reference)
                       - Z.of_nat (i + 1) + 1)).
Proof.
  eexists. split; [apply get_sentence_statistics_cons|].
  intros i Hi. unfold sentence_vector.
  rewrite !triplets_lookup by lia. unfold triplet.
  cbn [lookup list_lookup Nat.add].
  by rewrite !extract_char_ngrams_total.
Qed.

(** ** The order and the grouping of the sentences of a corpus *)

Lemma vec_add_exchange (a x y : list Z) :
  vec_add (vec_add a x) y = vec_add (vec_add a y) x.
Proof.
  unfold vec_add. apply list_eq. intros i. rewrite !lookup_zip_with.
  destruct (a !! i), (x !! i), (y !! i); cbn; try done. f_equal. lia.
Qed.

Lemma vec_add_assoc (a x y : list Z) :
  vec_add (vec_add a x) y = vec_add a (vec_add x y).
Proof.
  unfold vec_add. apply list_eq. intros i. rewrite !lookup_zip_with.
  destruct (a !! i), (x !! i), (y !! i); cbn; try done. f_equal. lia.
Qed.

Lemma foldl_vec_add_permutation (a : list Z) (vs vs' : list (list Z)) :
  vs ≡ₚ vs' → foldl vec_add a vs = foldl vec_add a vs'.
Proof.
  intros Hperm. revert a.
  induction Hperm as [|x vs vs' _ IH|x y vs|vs vs' vs'' _ IH1 _ IH2];
    intros a; cbn [foldl].
  - done.
  - apply IH.
  - by rewrite vec_add_exchange.
  - by rewrite IH1.
Qed.

Section Pairs.
Context (self : CHRF.t).
Implicit Types ps : list (str * str).

(** The sentence vectors of a corpus given as a list of pairs of a
    hypothesis and its reference. *)
Definition pair_vectors ps : list (list Z) :=
  (λ p, sentence_vector self p.1 p.2) <$> ps.

Lemma pooled_pairs ps :
  pooled self (ps.*1) [ps.*2] (length (ps.*1)) =
  foldl vec_add (zeros self) (pair_vectors ps).
Proof.
  unfold pooled, pair_vectors. f_equal. apply list_eq. intros k.
  rewrite !list_lookup_fmap, length_fmap.
  destruct (ps !! k) as [[h r]|] eqn:Hk.
  - rewrite lookup_seq_lt by by eapply lookup_lt_Some.
    cbn [fmap option_fmap option_map]. f_equal. unfold column.
    cbn [omap list_omap Nat.add]. rewrite !list_lookup_fmap, Hk. done.
  - rewrite lookup_seq_ge by by apply lookup_ge_None. done.
Qed.

Lemma corpus_score_pairs ps :
  CHRF.corpus_score self (SysStream (ps.*1)) (RefStreams [ps.*2]) =
  CHRF.compute_chrf (foldl vec_add (zeros self) (pair_vectors ps))
    (CHRF.order self) (CHRF.beta self).
Proof.
  rewrite corpus_score_walk. cbn [sys_lines ref_lines].
  rewrite corpus_walk_equal.
  - cbn [mbind result_bind]. by rewrite pooled_pairs.
  - done.
  - repeat constructor. by rewrite !length_fmap.
Qed.

Lemma pair_vectors_length ps :
  Forall (λ v, length v = length (zeros self)) (pair_vectors ps).
Proof.
  apply Forall_fmap, Forall_forall. intros p _. unfold compose.
  by rewrite sentence_vector_length, zeros_length.
Qed.

Lemma foldl_vec_add_from (c : list Z) (vs : list (list Z)) :
  length c = length (zeros self) →
  Forall (λ v, length v = length (zeros self)) vs →
  foldl vec_add c vs = vec_add c (foldl vec_add (zeros self) vs).
Proof.
  intros Hc Hvs. revert c Hc.
  induction Hvs as [|v vs Hv _ IH]; intros c Hc; cbn [foldl].
  - unfold vec_add. apply list_eq. intros i.
    rewrite lookup_zip_with. unfold zeros in *.
    destruct (c !! i) as [x|] eqn:Hx; [|done].
    rewrite lookup_replicate_2
      by (apply lookup_lt_Some in Hx; rewrite length_replicate in Hc; lia).
    cbn. f_equal. lia.
  - rewrite IH by (unfold vec_add; rewrite length_zip_with; lia).
    rewrite (IH (vec_add (zeros self) v))
      by (unfold vec_add; rewrite length_zip_with; lia).
    unfold zeros at 2. rewrite vec_add_zeros by (by rewrite Hv, zeros_length).
    apply vec_add_assoc.
Qed.
End Pairs.

(** X12. The score of a corpus does not depend on the order of its
    sentences: two lists of hypothesis and reference pairs that are
    permutations of each other get the same result. *)
Theorem corpus_score_permutation (self : CHRF.t)
    (ps ps' : list (str * str)) :
  ps ≡ₚ ps' →
  CHRF.corpus_score self (SysStream (ps.*1)) (RefStreams [ps.*2]) =
  CHRF.corpus_score self (SysStream (ps'.*1)) (RefStreams [ps'.*2]).
Proof.
  intros Hperm. rewrite !corpus_score_pairs. f_equal.
  apply foldl_vec_add_permutation. unfold pair_vectors.
  by apply fmap_Permutation.
Qed.

Lemma corpus_score_permutation_witness :
  [(s2l "ab", s2l "ac"); (s2l "d", s2l "d")] ≡ₚ
  [(s2l "d", s2l "d"); (s2l "ab", s2l "ac")] ∧
  CHRF.corpus_score default_metric (SysStream [s2l "ab"; s2l "d"])
    (RefStreams [[s2l "ac"; s2l "d"]]) =
  CHRF.corpus_score default_metric (SysStream [s2l "d"; s2l "ab"])
    (RefStreams [[s2l "d"; s2l "ac"]]).
Proof.
  assert ([(s2l "ab", s2l "ac"); (s2l "d", s2l "d")] ≡ₚ
          [(s2l "d", s2l "d"); (s2l "ab", s2l "ac")]) as Hperm
    by apply Permutation_swap.
  split; [exact Hperm|].
  exact (corpus_score_permutation default_metric _ _ Hperm).
Defined.

(** X13. The statistics of a corpus made of two parts are the
    element-wise sum of the statistics of the parts: the walk over the
    concatenated streams ends with the sum of the vectors the two walks end
    with. *)
Theorem corpus_statistics_concatenation (self : CHRF.t)
    (ps qs : list (str * str)) :
  ∃ a b,
    corpus_walk self [ps.*1; ps.*2] = Ok a ∧
    corpus_walk self [qs.*1; qs.*2] = Ok b ∧
    corpus_walk self [(ps ++ qs).*1; (ps ++ qs).*2] = Ok (vec_add a b).
Proof.
  assert (∀ rs : list (str * str),
            corpus_walk self [rs.*1; rs.*2] =
            Ok (foldl vec_add (zeros self) (pair_vectors self rs))) as Hwalk.
  { intros rs. rewrite corpus_walk_equal.
    - by rewrite pooled_pairs.
    - done.
    - repeat constructor. by rewrite !length_fmap. }
  do 2 eexists. split_and!; [apply Hwalk..|].
  rewrite Hwalk. f_equal. unfold pair_vectors.
  rewrite fmap_app, foldl_app. apply foldl_vec_add_from.
  - pose proof (foldl_vec_add_scorable self (zeros self)
                  (pair_vectors self ps)) as [Hlen _].
    + apply zeros_length.
    + apply zeros_nonneg.
    + apply Forall_fmap, Forall_forall. intros p _. by eexists _, _.
    + unfold pair_vectors in Hlen. by rewrite Hlen, zeros_length.
  - apply pair_vectors_length.
Qed.

(** ** Texts that the tokenizer makes equal *)

(** In the arithmetic of the reals: when the tokenizer maps the hypothesis
    and the reference to the same non-empty text, the sentence scores 1. *)
Lemma equal_after_tokenizing_real (self : CHRF.t)
    (hypothesis reference : str) (rest : list str) (b : Z) :
  CHRF.tokenizer self hypothesis = CHRF.tokenizer self reference →
  CHRF.tokenizer self hypothesis ≠ [] →
  1 ≤ CHRF.order self → CHRF.beta self = PyInt b →
  CHRF.sentence_score self hypothesis (RefList (reference :: rest)) =
  Ok (CHRFScore.Build 1%Qc (PyInt b) (CHRF.order self) ("chrF" +:+ pretty b)).
Proof.
  intros Htok Hne Hord Hbeta.
  rewrite <- (identity_score self hypothesis Hord Hne b Hbeta).
  rewrite !compute_chrf_sentence. f_equal.
  unfold sentence_vector. by rewrite Htok.
Qed.

(** ** The order 0 *)

(** X15. For the order 0 the slices are empty: [extract_char_ngrams]
    counts the empty n-gram once per position, [len(line) + 1] times, and
    nothing else. *)
Theorem extract_char_ngrams_order_zero {A : Type} `{Countable A}
    (line : list A) :
  sum_values (extract_char_ngrams line 0) = len line + 1 ∧
  multiplicity [] (extract_char_ngrams line 0) = S (length line) ∧
  ∀ g, g ≠ [] → multiplicity g (extract_char_ngrams line 0) = 0%nat.
Proof.
  assert (ngram_list line 0 = replicate (S (length line)) []) as Hl.
  { rewrite ngram_list_take_drop. unfold range, len.
    replace (Z.to_nat (Z.of_nat (length line) - Z.of_nat 0 + 1))
      with (S (length line)) by lia.
    apply list_eq. intros k. rewrite list_lookup_fmap.
    destruct (decide (k < S (length line))%nat) as [Hk|Hk].
    - by rewrite lookup_seq_lt, lookup_replicate_2 by done.
    - rewrite lookup_seq_ge by lia.
      symmetry. apply lookup_replicate_None. lia. }
  split_and!.
  - rewrite extract_char_ngrams_total. unfold len. lia.
  - unfold extract_char_ngrams, Counter. rewrite Hl.
    rewrite list_to_set_disj_replicate, multiplicity_scalar_mul,
      multiplicity_singleton_eq. lia.
  - intros g Hg. apply extract_char_ngrams_other_length.
    by destruct g.
Qed.

(** ** Entries that the scorer does not read *)

Lemma entry_app_l (st extra : list Z) (k : nat) :
  (k < length st)%nat → entry (st ++ extra) k = entry st k.
Proof. intros Hk. unfold entry. by rewrite lookup_app_l. Qed.

(** X16. [compute_chrf] reads the first [3 × order] entries only: entries
    appended after them change neither the result nor the error. *)
Theorem compute_chrf_reads_prefix (st extra : list Z) (order : Z)
    (beta : number) :
  3 * order ≤ len st →
  CHRF.compute_chrf (st ++ extra) order beta =
  CHRF.compute_chrf st order beta.
Proof.
  intros Hlen. unfold CHRF.compute_chrf, CHRF.chrf_fscore.
  rewrite !chrf_averages_spec
    by (unfold len in *; rewrite ?length_app; lia).
  destruct (averages_agree st (st ++ extra) order) as [-> ->]; [|done].
  intros i j Hi Hj. apply entry_app_l. unfold len in Hlen. lia.
Qed.

Lemma compute_chrf_reads_prefix_witness :
  3 * 1 ≤ len [2; 3; 2] ∧
  CHRF.compute_chrf ([2; 3; 2] ++ [7; 7; 7; 7]) 1 (PyInt 2) =
  CHRF.compute_chrf [2; 3; 2] 1 (PyInt 2).
Proof.
  assert (3 * 1 ≤ len [2; 3; 2]) as Hlen by (vm_compute; discriminate).
  split; [exact Hlen|].
  exact (compute_chrf_reads_prefix [2; 3; 2] [7; 7; 7; 7] 1 (PyInt 2) Hlen).
Defined.

(** ** A corpus whose hypotheses match their references *)

Lemma entry_vec_add (a b : list Z) (k : nat) :
  length a = length b → entry (vec_add a b) k = entry a k + entry b k.
Proof.
  intros Hlen. unfold entry, vec_add. rewrite lookup_zip_with.
  destruct (a !! k) as [x|] eqn:Ha, (b !! k) as [y|] eqn:Hb; cbn; try done.
  - apply lookup_lt_Some in Ha. apply lookup_ge_None in Hb. lia.
  - apply lookup_ge_None in Ha. apply lookup_lt_Some in Hb. lia.
Qed.

Section ExactMatch.
Context (self : CHRF.t).
Implicit Types (ps : list (str * str)) (c : list Z).

(** Below the order, the three entries of each triplet are equal. *)
Definition level c : Prop :=
  ∀ i j : nat, (i < Z.to_nat (CHRF.order self))%nat → (j < 3)%nat →
    entry c (3 * i + j) = entry c (3 * i + 0).

Definition matching (p : str * str) : Prop :=
  CHRF.tokenizer self p.1 = CHRF.tokenizer self p.2.

Lemma matching_vector (p : str * str) :
  matching p → sentence_vector self p.1 p.2 = sentence_vector self p.1 p.1.
Proof. intros Hm. unfold sentence_vector. by rewrite <- Hm. Qed.

Lemma matching_level (p : str * str) :
  matching p → level (sentence_vector self p.1 p.2).
Proof.
  intros Hm i j Hi Hj. rewrite matching_vector by done.
  by rewrite !identity_entries by lia.
Qed.

Lemma matching_first_entry (p : str * str) :
  1 ≤ CHRF.order self → matching p →
  entry (sentence_vector self p.1 p.2) 0 = len (CHRF.tokenizer self p.1).
Proof.
  intros Hord Hm.
  destruct (sentence_vector_counts self p.1 p.2 0) as [Hh _]; [lia|].
  cbn [Nat.mul Nat.add] in Hh. rewrite Hh. unfold len. lia.
Qed.

Lemma matching_pool ps c :
  1 ≤ CHRF.order self →
  length c = Z.to_nat (CHRF.order self * 3) → level c → 0 ≤ entry c 0 →
  Forall matching ps →
  level (foldl vec_add c (pair_vectors self ps)) ∧
  0 ≤ entry (foldl vec_add c (pair_vectors self ps)) 0 ∧
  (0 < entry c 0 ∨ Exists (λ p, CHRF.tokenizer self p.1 ≠ []) ps →
   0 < entry (foldl vec_add c (pair_vectors self ps)) 0).
Proof.
  intros Hord Hlen Hlevel Hpos Hps. revert c Hlen Hlevel Hpos.
  induction Hps as [|p ps Hp _ IH]; intros c Hlen Hlevel Hpos.
  - cbn [pair_vectors fmap list_fmap foldl]. split_and!; [done..|].
    intros [?|Hex]; [done|]. by apply Exists_nil in Hex.
  - cbn [pair_vectors fmap list_fmap foldl].
    assert (length c = length (sentence_vector self p.1 p.2)) as Hl
      by by rewrite sentence_vector_length.
    pose proof (matching_first_entry p Hord Hp) as Hfirst.
    destruct (IH (vec_add c (sentence_vector self p.1 p.2)))
      as (Hlev & Hnn & Hstrict).
    + rewrite vec_add_length; [done|]. by rewrite sentence_vector_length.
    + intros i j Hi Hj. rewrite !entry_vec_add by done.
      by rewrite Hlevel, (matching_level p Hp i j) by done.
    + rewrite entry_vec_add, Hfirst by done. unfold len. lia.
    + split_and!; [done..|]. intros Hsome. apply Hstrict.
      rewrite entry_vec_add, Hfirst by done.
      destruct Hsome as [?|Hex]; [left; unfold len; lia|].
      apply Exists_cons in Hex as [Hne|Hex]; [|by right].
      left. unfold len. destruct (CHRF.tokenizer self p.1); [done|].
      cbn [length]. lia.
Qed.

Lemma zeros_level : level (zeros self).
Proof. intros i j _ _. by rewrite !entry_zeros. Qed.
End ExactMatch.

(** In the arithmetic of the reals: a corpus in which every hypothesis and
    its reference are equal once tokenized, and at least one of them is not
    empty, scores 1. *)
Lemma exact_match_corpus_real (self : CHRF.t) (ps : list (str * str)) (b : Z) :
  Forall (matching self) ps →
  Exists (λ p, CHRF.tokenizer self p.1 ≠ []) ps →
  1 ≤ CHRF.order self → CHRF.beta self = PyInt b →
  CHRF.corpus_score self (SysStream (ps.*1)) (RefStreams [ps.*2]) =
  Ok (CHRFScore.Build 1%Qc (PyInt b) (CHRF.order self) ("chrF" +:+ pretty b)).
Proof.
  intros Hmatch Hsome Hord Hbeta.
  destruct (matching_pool self ps (zeros self) Hord (zeros_length self)
              (zeros_level self)) as (Hlevel & _ & Hpos);
    [by rewrite entry_zeros|done|].
  specialize (Hpos (or_intror Hsome)).
  destruct (foldl_vec_add_scorable self (zeros self) (pair_vectors self ps))
    as [Hlen Hnn]; [apply zeros_length|apply zeros_nonneg| |].
  { apply Forall_fmap, Forall_forall. intros p _. by eexists _, _. }
  rewrite corpus_score_pairs, Hbeta, compute_chrf_int
    by (done || unfold len; rewrite Hlen; lia).
  do 2 f_equal. unfold averaged_precision, averaged_recall.
  set (V := foldl vec_add (zeros self) (pair_vectors self ps)) in *.
  assert (effective_orders V (CHRF.order self) ≠ []) as Hne.
  { assert (0%nat ∈ effective_orders V (CHRF.order self)) as Hin.
    { apply list_elem_of_filter. split; [|apply elem_of_seq; lia].
      unfold effective. rewrite (Hlevel 0%nat 1%nat) by lia. done. }
    intros Heq. rewrite Heq in Hin. by apply not_elem_of_nil in Hin. }
  assert (∀ i, i ∈ effective_orders V (CHRF.order self) →
               precision_at V i = 1%Qc ∧ recall_at V i = 1%Qc) as Hone.
  { intros i [[Hh Hr] Hi%elem_of_seq]%list_elem_of_filter.
    unfold precision_at, recall_at.
    rewrite (Hlevel i 2%nat), (Hlevel i 1%nat) by lia.
    split; by apply Qcmult_inv_r, Qc_of_Z_pos_ne. }
  rewrite !average_one; [apply f_beta_one|done|..|done|].
  - apply Forall_forall. intros i Hi. by apply Hone.
  - apply Forall_forall. intros i Hi. by apply Hone.
Qed.

(** * Scoring within the range of a double

    The module [CHRF] reads a Python [float] as a real number. Three
    operations of [compute_chrf] raise [OverflowError] when a number is
    beyond the range of a double: the division of two ints, the conversion
    of an int that is combined with a float, and [**] on a float. The
    module [Ranged] embeds [compute_chrf] and the two scoring calls with
    these errors. The other operations on floats raise nothing. A float
    is a finite one, and rounding is still not modelled. *)

(** The magnitude from which a number rounds to no finite double: half a
    unit in the last place above the largest double, [2 ** 1024 - 2 ** 971]. *)
Definition overflow_bound : Z := 2 ^ 1024 - 2 ^ 970.

Definition in_range (x : Qc) : Prop :=
  (- Qc_of_Z overflow_bound < x)%Qc ∧ (x < Qc_of_Z overflow_bound)%Qc.

#[global] Instance in_range_dec (x : Qc) : Decision (in_range x).
Proof. unfold in_range. apply _. Defined.

Module Ranged.
(** The conversion of an int operand to a float. *)
Definition float_of_int (z : Z) : result Qc :=
  if decide (in_range (Qc_of_Z z)) then Ok (Qc_of_Z z)
  else Raise OverflowError.

(** [a / b] on two ints. *)
Definition truediv (a b : Z) : result Qc :=
  if decide (b = 0) then Raise ZeroDivisionError
  else if decide (in_range (Qc_of_Z a / Qc_of_Z b)%Qc)
       then Ok (Qc_of_Z a / Qc_of_Z b)%Qc
       else Raise OverflowError.

(** [x ** 2]: exact on an int, checked against the range on a float. *)
Definition square (x : number) : result number :=
  match x with
  | PyInt z => Ok (PyInt (z * z))
  | PyFloat q =>
      if decide (in_range (q * q)%Qc) then Ok (PyFloat (q * q))
      else Raise OverflowError
  end.

(** [1 + x]: an int for an int, a float for a float. *)
Definition add_one (x : number) : number :=
  match x with
  | PyInt z => PyInt (1 + z)
  | PyFloat q => PyFloat (1 + q)
  end.

(** A number as the operand of a float operation. *)
Definition as_float (x : number) : result Qc :=
  match x with
  | PyInt z => float_of_int z
  | PyFloat q => Ok q
  end.

(** The body of the loop of [compute_chrf]. *)
Definition chrf_step (statistics : list Z) (acc : Qc * Qc * Z) (i : nat)
  : result (Qc * Qc * Z) :=
  let '(avg_precision, avg_recall, effective_order) := acc in
  hypotheses_ngrams ← getitem statistics (3 * i + 0);
  references_ngrams ← getitem statistics (3 * i + 1);
  common_ngrams ← getitem statistics (3 * i + 2);
  if decide (hypotheses_ngrams > 0 ∧ references_ngrams > 0) then
    p ← truediv common_ngrams hypotheses_ngrams;
    r ← truediv common_ngrams references_ngrams;
    Ok ((avg_precision + p)%Qc, (avg_recall + r)%Qc, effective_order + 1)
  else Ok acc.

(** [compute_chrf] up to the averaging. The count of effective orders is
    at most the number of iterations of the loop and is converted as it
    is. *)
Definition chrf_averages (statistics : list Z) (order : Z)
  : result (Qc * Qc) :=
  '(avg_precision, avg_recall, effective_order) ←
    for_each (range order) (chrf_step statistics) (0%Qc, 0%Qc, 0);
  if decide (effective_order = 0) then Ok (0%Qc, 0%Qc)
  else
    avg_precision ← fdiv avg_precision (Qc_of_Z effective_order);
    avg_recall ← fdiv avg_recall (Qc_of_Z effective_order);
    Ok (avg_precision, avg_recall).

(** [compute_chrf] up to the last assignment of [score]. *)
Definition chrf_fscore (statistics : list Z) (order : Z) (beta : number)
  : result Qc :=
  '(avg_precision, avg_recall) ← chrf_averages statistics order;
  if decide (avg_precision + avg_recall = 0)%Qc then Ok 0%Qc
  else
    beta_square ← square beta;
    factor ← as_float (add_one beta_square);
    let score := (factor * (avg_precision * avg_recall))%Qc in
    weight ← as_float beta_square;
    fdiv score (weight * avg_precision + avg_recall)%Qc.

(** [CHRF.compute_chrf]. *)
Definition compute_chrf (statistics : list Z) (order : Z) (beta : number)
  : result CHRFScore.t :=
  score ← chrf_fscore statistics order beta;
  CHRFScore.init score beta order.

(** [CHRF.sentence_score]. *)
Definition sentence_score (self : CHRF.t) (hypothesis : str)
    (references : references_arg) : result CHRFScore.t :=
  match references with
  | RefStr _ => Raise AssertionError
  | RefList references =>
      stats ← CHRF.get_sentence_statistics self hypothesis references;
      compute_chrf stats (CHRF.order self) (CHRF.beta self)
  end.

(** [CHRF.corpus_score]. *)
Definition corpus_score (self : CHRF.t) (sys_stream : sys_arg)
    (ref_streams : refs_arg) : result CHRFScore.t :=
  let sys_stream :=
    match sys_stream with SysStr s => [s] | SysStream l => l end in
  let ref_streams :=
    match ref_streams with RefsStr s => [[s]] | RefStreams l => l end in
  let corpus_statistics := replicate (Z.to_nat (CHRF.order self * 3)) 0 in
  let fhs := [sys_stream] ++ ref_streams in
  corpus_statistics ←
    for_each (zip_longest fhs) (CHRF.corpus_step self) corpus_statistics;
  compute_chrf corpus_statistics (CHRF.order self) (CHRF.beta self).
End Ranged.

(** ** Numbers within the range *)

Lemma overflow_bound_large : 2 ^ 53 < overflow_bound.
Proof. by vm_compute. Qed.

Lemma int_in_range (z : Z) :
  - overflow_bound < z < overflow_bound → in_range (Qc_of_Z z).
Proof.
  intros [Hlo Hhi]. split.
  - rewrite <- Z2Qc_inj_opp. by apply (proj1 (Z2Qc_inj_lt _ _)).
  - by apply (proj1 (Z2Qc_inj_lt _ _)).
Qed.

Lemma int_out_of_range (z : Z) :
  overflow_bound ≤ z → ¬ in_range (Qc_of_Z z).
Proof.
  intros Hz [_ Hhi]. apply (proj2 (Z2Qc_inj_lt _ _)) in Hhi. lia.
Qed.

Lemma unit_in_range (x : Qc) : (0 ≤ x)%Qc → (x ≤ 1)%Qc → in_range x.
Proof.
  pose proof overflow_bound_large as Hb.
  intros H0 H1. split.
  - eapply Qclt_le_trans; [|exact H0].
    rewrite <- Z2Qc_inj_opp, <- Z2Qc_inj_0.
    apply (proj1 (Z2Qc_inj_lt _ _)). lia.
  - eapply Qcle_lt_trans; [exact H1|].
    rewrite <- Z2Qc_inj_1. apply (proj1 (Z2Qc_inj_lt _ _)). lia.
Qed.

(** Dividing by an integer that is at least 1 does not leave the range. *)
Lemma quotient_in_range (c h : Z) :
  - overflow_bound < c < overflow_bound → 1 ≤ h →
  in_range (Qc_of_Z c / Qc_of_Z h).
Proof.
  intros Hc Hh.
  assert (0 < Qc_of_Z h)%Qc as Hpos by (apply Qc_of_Z_pos; lia).
  assert (Qc_of_Z h ≠ 0%Qc) as Hne by (apply Qc_of_Z_pos_ne; lia).
  assert (∀ x : Z, x ≤ x * h → (Qc_of_Z x / Qc_of_Z h ≤ Qc_of_Z x)%Qc)
    as Hshrink.
  { intros x Hx. apply (Qcmult_lt_0_le_reg_r _ _ (Qc_of_Z h)); [done|].
    rewrite (Qcmult_comm (Qc_of_Z x / Qc_of_Z h)), Qcmult_div_r by done.
    rewrite <- Z2Qc_inj_mul. by apply (proj1 (Z2Qc_inj_le _ _)). }
  assert (∀ x : Z, x * h ≤ x → (Qc_of_Z x ≤ Qc_of_Z x / Qc_of_Z h)%Qc)
    as Hgrow.
  { intros x Hx. apply (Qcmult_lt_0_le_reg_r _ _ (Qc_of_Z h)); [done|].
    rewrite (Qcmult_comm (Qc_of_Z x / Qc_of_Z h)), Qcmult_div_r by done.
    rewrite <- Z2Qc_inj_mul. by apply (proj1 (Z2Qc_inj_le _ _)). }
  assert (∀ x : Z, 0 ≤ x → (0 ≤ Qc_of_Z x / Qc_of_Z h)%Qc) as Hnn
    by (intros x Hx; apply ratio_nonneg; lia).
  assert (∀ x : Z, x ≤ 0 → (Qc_of_Z x / Qc_of_Z h ≤ 0)%Qc) as Hnp.
  { intros x Hx. apply (Qcmult_lt_0_le_reg_r _ _ (Qc_of_Z h)); [done|].
    rewrite (Qcmult_comm (Qc_of_Z x / Qc_of_Z h)), Qcmult_div_r by done.
    rewrite Qcmult_0_l, <- Z2Qc_inj_0. by apply (proj1 (Z2Qc_inj_le _ _)). }
  destruct (int_in_range c Hc) as [Hlo Hhi].
  assert (- Qc_of_Z overflow_bound < 0)%Qc as Hneg.
  { rewrite <- Z2Qc_inj_opp, <- Z2Qc_inj_0.
    apply (proj1 (Z2Qc_inj_lt _ _)). lia. }
  assert (0 < Qc_of_Z overflow_bound)%Qc as Hbpos
    by (apply Qc_of_Z_pos; lia).
  destruct (decide (0 ≤ c)) as [Hc0|Hc0]; split.
  - eapply Qclt_le_trans; [exact Hneg|]. by apply Hnn.
  - eapply Qcle_lt_trans; [|exact Hhi]. apply Hshrink. nia.
  - eapply Qclt_le_trans; [exact Hlo|]. apply Hgrow. nia.
  - eapply Qcle_lt_trans; [|exact Hbpos]. apply Hnp. lia.
Qed.

(** ** The two embeddings of the scorer agree within the range *)

Lemma for_each_ext_in {S B} (f g : S → B → result S) (l : list B) (s : S) :
  (∀ x, x ∈ l → ∀ s', f s' x = g s' x) →
  for_each l f s = for_each l g s.
Proof.
  revert s. induction l as [|x l IH]; intros s Hfg; [done|].
  cbn [for_each]. rewrite Hfg by by left.
  destruct (g s x); cbn [mbind result_bind]; [|done].
  apply IH. intros y Hy. apply Hfg. by right.
Qed.

(** The quotients of the effective orders among [l] are within range. *)
Definition quotients_in_range (st : list Z) (l : list nat) : Prop :=
  ∀ i, i ∈ l → effective st i →
       in_range (precision_at st i) ∧ in_range (recall_at st i).

Lemma ranged_truediv (a b : Z) :
  b ≠ 0 → in_range (Qc_of_Z a / Qc_of_Z b) →
  Ranged.truediv a b = truediv a b.
Proof.
  intros Hb Hr. unfold Ranged.truediv, truediv, fdiv.
  rewrite (decide_False (P := b = 0)) by done.
  rewrite decide_True by done.
  rewrite decide_False; [done|].
  rewrite <- Z2Qc_inj_0. by intros Heq%Z2Qc_inj.
Qed.

Lemma ranged_chrf_step (st : list Z) (acc : Qc * Qc * Z) (i : nat) :
  (3 * i + 2 < length st)%nat →
  (effective st i →
   in_range (precision_at st i) ∧ in_range (recall_at st i)) →
  Ranged.chrf_step st acc i = CHRF.chrf_step st acc i.
Proof.
  intros Hi Hq. destruct acc as [[p r] e].
  unfold Ranged.chrf_step, CHRF.chrf_step.
  rewrite !getitem_entry by lia. cbn [mbind result_bind].
  case_decide as Heff; [|done].
  destruct Hq as [Hp Hr]; [split; lia|].
  by rewrite !ranged_truediv by (done || lia).
Qed.

Lemma ranged_chrf_loop (st : list Z) (l : list nat) (acc : Qc * Qc * Z) :
  Forall (λ i, 3 * i + 2 < length st)%nat l → quotients_in_range st l →
  for_each l (Ranged.chrf_step st) acc = for_each l (CHRF.chrf_step st) acc.
Proof.
  intros Hl Hq. apply for_each_ext_in. intros i Hi acc'.
  apply ranged_chrf_step.
  - by apply (proj1 (Forall_forall _ _) Hl).
  - by apply Hq.
Qed.

Lemma ranged_chrf_averages (st : list Z) (order : Z) :
  3 * order ≤ len st → quotients_in_range st (range order) →
  Ranged.chrf_averages st order =
  Ok (averaged_precision st order, averaged_recall st order).
Proof.
  intros Hlen Hq. rewrite <- chrf_averages_spec by done.
  unfold Ranged.chrf_averages, CHRF.chrf_averages.
  by rewrite ranged_chrf_loop by (by apply range_in_vector || done).
Qed.

Lemma bounded_quotients (st : list Z) (order : Z) :
  Forall (λ z, 0 ≤ z) st → bounded_statistics st order →
  quotients_in_range st (range order).
Proof.
  intros Hnn Hb i Hi Heff.
  destruct (Hb i) as [Hh Hr]; [by apply list_elem_of_filter|].
  destruct Heff as [Hhp Hrp].
  split; apply unit_in_range;
    (by apply ratio_nonneg; [apply entry_nonneg|])
    || by apply ratio_le_one.
Qed.

(** The score of [Ranged.chrf_fscore] on counts that are bounded. *)
Definition ranged_fscore (beta : number) (p r : Qc) : result Qc :=
  if decide (p + r = 0)%Qc then Ok 0%Qc
  else
    match beta with
    | PyInt b =>
        if decide (in_range (Qc_of_Z (1 + b * b)))
        then Ok (f_beta (Qc_of_Z b) p r) else Raise OverflowError
    | PyFloat q =>
        if decide (in_range (q * q)%Qc)
        then Ok (f_beta q p r) else Raise OverflowError
    end.

Lemma ranged_chrf_fscore (st : list Z) (order : Z) (beta : number) :
  3 * order ≤ len st → Forall (λ z, 0 ≤ z) st →
  bounded_statistics st order →
  Ranged.chrf_fscore st order beta =
  ranged_fscore beta (averaged_precision st order) (averaged_recall st order).
Proof.
  intros Hlen Hnn Hb. unfold Ranged.chrf_fscore, ranged_fscore.
  rewrite ranged_chrf_averages by (done || by apply bounded_quotients).
  cbn [mbind result_bind]. case_decide as Hsum; [done|].
  set (p := averaged_precision st order) in *.
  set (r := averaged_recall st order) in *.
  assert (∀ x : Qc, (x * x * p + r)%Qc ≠ 0%Qc) as Hden.
  { intros x. apply f_beta_denominator;
      [by apply precision_nonneg|by apply recall_nonneg
      |by apply recall_zero_precision_zero|done]. }
  destruct beta as [b|q]; cbn [Ranged.square mbind result_bind].
  - cbn [Ranged.add_one Ranged.as_float]. unfold Ranged.float_of_int.
    destruct (decide (in_range (Qc_of_Z (1 + b * b)))) as [Hrange|Hrange];
      cbn [mbind result_bind]; [|done].
    rewrite decide_True.
    + cbn [mbind result_bind]. unfold fdiv, f_beta.
      specialize (Hden (Qc_of_Z b)).
      rewrite Z2Qc_inj_add, Z2Qc_inj_1, !Z2Qc_inj_mul.
      rewrite !decide_False by done. by rewrite Qcmult_assoc.
    + destruct Hrange as [Hlo Hhi].
      apply (proj2 (Z2Qc_inj_lt _ _)) in Hhi.
      apply int_in_range. pose proof overflow_bound_large. nia.
  - destruct (decide (in_range (q * q)%Qc)) as [Hrange|Hrange];
      cbn [mbind result_bind]; [|done].
    cbn [mbind result_bind Ranged.add_one Ranged.as_float].
    unfold fdiv, f_beta. specialize (Hden q).
    rewrite !decide_False by done. by rewrite Qcmult_assoc.
Qed.

Lemma sentence_vector_bounded (self : CHRF.t) (hypothesis reference : str) :
  bounded_statistics (sentence_vector self hypothesis reference)
    (CHRF.order self).
Proof.
  destruct (decide (0 ≤ CHRF.order self)) as [Hord|Hord].
  - by apply valid_bounded, sentence_vector_valid.
  - apply negative_order_bounded. lia.
Qed.

Lemma pooled_bounded (self : CHRF.t) (hyps : list str)
    (refs : list (list str)) :
  refs ≠ [] → equal_lengths hyps refs →
  bounded_statistics (pooled self hyps refs (length hyps)) (CHRF.order self).
Proof.
  intros Hrefs Heq. destruct (decide (0 ≤ CHRF.order self)) as [Hord|Hord].
  - apply valid_bounded, pooled_valid; [done..|by apply equal_lengths_all].
  - apply negative_order_bounded. lia.
Qed.

(** The scoring calls, for a sentence with a reference and for a corpus of
    streams of the same length. *)
Lemma ranged_sentence_score (self : CHRF.t) (hypothesis reference : str)
    (rest : list str) :
  let st := sentence_vector self hypothesis reference in
  Ranged.sentence_score self hypothesis (RefList (reference :: rest)) =
  (score ← ranged_fscore (CHRF.beta self)
             (averaged_precision st (CHRF.order self))
             (averaged_recall st (CHRF.order self));
   CHRFScore.init score (CHRF.beta self) (CHRF.order self)).
Proof.
  intros st. unfold Ranged.sentence_score.
  rewrite get_sentence_statistics_cons. cbn [mbind result_bind].
  unfold Ranged.compute_chrf.
  by rewrite ranged_chrf_fscore
    by (apply sentence_vector_scorable || apply sentence_vector_bounded).
Qed.

Lemma ranged_corpus_score_walk (self : CHRF.t) (sys : sys_arg)
    (refs : refs_arg) :
  Ranged.corpus_score self sys refs =
  (cs ← corpus_walk self (sys_lines sys :: ref_lines refs);
   Ranged.compute_chrf cs (CHRF.order self) (CHRF.beta self)).
Proof. by destruct sys, refs. Qed.

Lemma ranged_corpus_score (self : CHRF.t) (sys : sys_arg) (refs : refs_arg) :
  ref_lines refs ≠ [] → equal_lengths (sys_lines sys) (ref_lines refs) →
  let cs := pooled self (sys_lines sys) (ref_lines refs)
              (length (sys_lines sys)) in
  Ranged.corpus_score self sys refs =
  (score ← ranged_fscore (CHRF.beta self)
             (averaged_precision cs (CHRF.order self))
             (averaged_recall cs (CHRF.order self));
   CHRFScore.init score (CHRF.beta self) (CHRF.order self)).
Proof.
  intros Hrefs Heq cs.
  rewrite ranged_corpus_score_walk, corpus_walk_equal by done.
  cbn [mbind result_bind]. unfold Ranged.compute_chrf.
  destruct (pooled_scorable self (sys_lines sys) (ref_lines refs)
              (length (sys_lines sys))) as [Hlen Hnn];
    [done|by apply equal_lengths_all|].
  by rewrite ranged_chrf_fscore by (done || by apply pooled_bounded).
Qed.


Lemma ranged_fscore_int (b : Z) (p r : Qc) :
  in_range (Qc_of_Z (1 + b * b)) →
  ranged_fscore (PyInt b) p r = Ok (f_beta (Qc_of_Z b) p r).
Proof.
  intros Hrange. unfold ranged_fscore, f_beta.
  case_decide; [done|]. by rewrite decide_True.
Qed.





Lemma small_beta_in_range (b : Z) :
  1 + b * b ≤ 2 ^ 53 → in_range (Qc_of_Z (1 + b * b)).
Proof.
  intros Hb. apply int_in_range. pose proof overflow_bound_large. nia.
Qed.

Lemma ranged_sentence_score_int (self : CHRF.t) (hypothesis reference : str)
    (rest : list str) (b : Z) :
  CHRF.beta self = PyInt b → in_range (Qc_of_Z (1 + b * b)) →
  Ranged.sentence_score self hypothesis (RefList (reference :: rest)) =
  CHRF.sentence_score self hypothesis (RefList (reference :: rest)).
Proof.
  intros Hbeta Hrange.
  rewrite ranged_sentence_score, sentence_score_cons, Hbeta.
  by rewrite ranged_fscore_int.
Qed.

Lemma ranged_corpus_score_int (self : CHRF.t) (sys : sys_arg)
    (refs : refs_arg) (b : Z) :
  ref_lines refs ≠ [] → equal_lengths (sys_lines sys) (ref_lines refs) →
  CHRF.beta self = PyInt b → in_range (Qc_of_Z (1 + b * b)) →
  Ranged.corpus_score self sys refs = CHRF.corpus_score self sys refs.
Proof.
  intros Hrefs Heq Hbeta Hrange.
  rewrite ranged_corpus_score, corpus_score_equal, Hbeta by done.
  by rewrite ranged_fscore_int.
Qed.

(** ** A float beta *)



(** ** A vector that is too short *)

Lemma ranged_chrf_step_out_of_range (st : list Z) (acc : Qc * Qc * Z)
    (j : nat) :
  (length st ≤ 3 * j + 2)%nat →
  Ranged.chrf_step st acc j = Raise IndexError.
Proof.
  intros Hj. destruct acc as [[p r] e]. unfold Ranged.chrf_step.
  rewrite (getitem_out_of_range st (3 * j + 2)) by done.
  destruct (getitem st (3 * j + 0)) as [h|e0] eqn:Hh; cbn [mbind result_bind].
  - destruct (getitem st (3 * j + 1)) as [x|e1] eqn:Hr;
      cbn [mbind result_bind]; [done|].
    by rewrite (getitem_raises _ _ _ Hr).
  - by rewrite (getitem_raises _ _ _ Hh).
Qed.

Lemma entries_in_range (st : list Z) (l : list nat) :
  Forall (λ z, - overflow_bound < z < overflow_bound) st →
  quotients_in_range st l.
Proof.
  intros Hst i _ [Hh Hr].
  assert (∀ k, - overflow_bound < entry st k < overflow_bound) as Hentry.
  { intros k. unfold entry. destruct (st !! k) as [z|] eqn:Hk; cbn.
    - by apply (Forall_lookup_1 _ _ _ _ Hst Hk).
    - pose proof overflow_bound_large. lia. }
  split; apply quotient_in_range; done || lia.
Qed.

(** X8. When the vector has fewer than [3 × order] entries, each of them
    within the range of a double, the loop of [compute_chrf] reads past
    the end of the vector and the call raises [IndexError], whatever beta
    is. *)
Theorem compute_chrf_short_vector (st : list Z) (order : Z) (beta : number) :
  len st < 3 * order →
  Forall (λ z, - overflow_bound < z < overflow_bound) st →
  Ranged.compute_chrf st order beta = Raise IndexError.
Proof.
  intros Hshort Hst. unfold len in Hshort.
  set (j := (length st / 3)%nat).
  assert (3 * j ≤ length st < 3 * j + 3)%nat as Hj.
  { unfold j. pose proof (Nat.div_mod_eq (length st) 3) as Hdm.
    pose proof (Nat.mod_upper_bound (length st) 3). lia. }
  assert (range order =
          seq 0 j ++ j :: seq (S j) (Z.to_nat order - S j)) as Hrange.
  { unfold range.
    replace (Z.to_nat order) with (j + S (Z.to_nat order - S j))%nat by lia.
    rewrite seq_app. cbn [seq Nat.add]. do 3 f_equal. lia. }
  assert (Forall (λ i, 3 * i + 2 < length st)%nat (seq 0 j)) as Hprefix.
  { apply Forall_forall. intros i Hi%elem_of_seq. lia. }
  unfold Ranged.compute_chrf, Ranged.chrf_fscore, Ranged.chrf_averages.
  rewrite Hrange, for_each_app.
  rewrite ranged_chrf_loop, chrf_loop by (done || by apply entries_in_range).
  cbn [mbind result_bind for_each].
  by rewrite ranged_chrf_step_out_of_range by lia.
Qed.

Lemma compute_chrf_short_vector_witness :
  len [1; 1; 1; 2] < 3 * 2 ∧
  Ranged.compute_chrf [1; 1; 1; 2] 2 (PyInt 2) = Raise IndexError.
Proof.
  assert (len [1; 1; 1; 2] < 3 * 2) as Hshort by (vm_compute; reflexivity).
  assert (Forall (λ z, - overflow_bound < z < overflow_bound) [1; 1; 1; 2])
    as Hst by (repeat constructor).
  split; [exact Hshort|].
  exact (compute_chrf_short_vector [1; 1; 1; 2] 2 (PyInt 2) Hshort Hst).
Defined.

(** ** Texts that the tokenizer makes equal, scored *)

(** X14. When the tokenizer maps the hypothesis and the reference to the
    same non-empty text, the order is at least 1 and beta is an integer
    with [1 + beta ** 2] at most [2 ** 53], so that it has a double of its
    own, then [sentence_score] returns the score 1. *)
Theorem equal_after_tokenizing (self : CHRF.t)
    (hypothesis reference : str) (rest : list str) (b : Z) :
  CHRF.tokenizer self hypothesis = CHRF.tokenizer self reference →
  CHRF.tokenizer self hypothesis ≠ [] →
  1 ≤ CHRF.order self → CHRF.beta self = PyInt b →
  1 + b * b ≤ 2 ^ 53 →
  Ranged.sentence_score self hypothesis (RefList (reference :: rest)) =
  Ok (CHRFScore.Build 1%Qc (PyInt b) (CHRF.order self) ("chrF" +:+ pretty b)).
Proof.
  intros Htok Hne Hord Hbeta Hsmall.
  rewrite (ranged_sentence_score_int self hypothesis reference rest b)
    by (done || by apply small_beta_in_range).
  by apply equal_after_tokenizing_real.
Qed.

Lemma equal_after_tokenizing_witness :
  CHRF.tokenizer default_metric (s2l "a b") =
    CHRF.tokenizer default_metric (s2l "ab ") ∧
  Ranged.sentence_score default_metric (s2l "a b") (RefList [s2l "ab "]) =
  Ok (CHRFScore.Build 1%Qc (PyInt 2) 6 "chrF2").
Proof.
  assert (CHRF.tokenizer default_metric (s2l "a b") =
          CHRF.tokenizer default_metric (s2l "ab ")) as Htok
    by (vm_compute; reflexivity).
  assert (CHRF.tokenizer default_metric (s2l "a b") ≠ []) as Hne
    by (vm_compute; discriminate).
  assert (1 ≤ CHRF.order default_metric) as Hord
    by (vm_compute; discriminate).
  assert (1 + 2 * 2 ≤ 2 ^ 53) as Hsmall by (vm_compute; discriminate).
  split; [exact Htok|].
  exact (equal_after_tokenizing default_metric (s2l "a b") (s2l "ab ") [] 2
           Htok Hne Hord eq_refl Hsmall).
Defined.

(** X17. A corpus of one reference stream in which every hypothesis and
    its reference are equal once tokenized, and at least one of them is
    not empty: when the order is at least 1 and beta is an integer with
    [1 + beta ** 2] at most [2 ** 53], [corpus_score] returns the score 1. *)
Theorem exact_match_corpus (self : CHRF.t) (ps : list (str * str)) (b : Z) :
  Forall (matching self) ps →
  Exists (λ p, CHRF.tokenizer self p.1 ≠ []) ps →
  1 ≤ CHRF.order self → CHRF.beta self = PyInt b →
  1 + b * b ≤ 2 ^ 53 →
  Ranged.corpus_score self (SysStream (ps.*1)) (RefStreams [ps.*2]) =
  Ok (CHRFScore.Build 1%Qc (PyInt b) (CHRF.order self) ("chrF" +:+ pretty b)).
Proof.
  intros Hmatch Hsome Hord Hbeta Hsmall.
  rewrite (ranged_corpus_score_int self _ _ b).
  - by apply exact_match_corpus_real.
  - done.
  - cbn [sys_lines ref_lines]. apply Forall_singleton.
    by rewrite !length_fmap.
  - done.
  - by apply small_beta_in_range.
Qed.

Lemma exact_match_corpus_witness :
  Forall (matching default_metric)
    [(s2l "aaaa bbbb cccc dddd", s2l "aaaa bbbb cccc dddd"); (s2l "", s2l " ")] ∧
  Ranged.corpus_score default_metric
    (SysStream [s2l "aaaa bbbb cccc dddd"; s2l ""])
    (RefStreams [[s2l "aaaa bbbb cccc dddd"; s2l " "]]) =
  Ok (CHRFScore.Build 1%Qc (PyInt 2) 6 "chrF2").
Proof.
  assert (Forall (matching default_metric)
            [(s2l "aaaa bbbb cccc dddd", s2l "aaaa bbbb cccc dddd");
             (s2l "", s2l " ")]) as Hmatch
    by (repeat constructor).
  assert (Exists (λ p, CHRF.tokenizer default_metric p.1 ≠ [])
            [(s2l "aaaa bbbb cccc dddd", s2l "aaaa bbbb cccc dddd");
             (s2l "", s2l " ")]) as Hsome
    by (left; vm_compute; discriminate).
  assert (1 ≤ CHRF.order default_metric) as Hord
    by (vm_compute; discriminate).
  assert (1 + 2 * 2 ≤ 2 ^ 53) as Hsmall by (vm_compute; discriminate).
  split; [exact Hmatch|].
  exact (exact_match_corpus default_metric _ 2 Hmatch Hsome Hord eq_refl
           Hsmall).
Defined.
